(** * pydsfapi.connections: the framed JSON transport of BaseConnection

    A shallow embedding of [BaseConnection] (connections.py): the brace-depth
    frame scanner, the read-ahead buffer, the handshake, [close] and
    [perform_command], over an explicit model of the blocking UNIX socket.

    Python [str] values are lists of Unicode code points, [bytes] values are
    lists of [Byte.byte], Python [int]s are [Z].  Methods are state
    transformers over the connection object and the world it talks to; an
    outcome records whether a call returned, raised, blocked in [recv]
    forever, or was cut off by the fuel that bounds the [while] loops.
    The [print] calls under [self.debug] are left out: with [debug] off
    none runs, and with it on the model is that of a connection whose
    debug output does not fail. *)

From Stdlib Require Import Strings.String Strings.Ascii Strings.Byte.
From Stdlib Require Import List ZArith NArith Bool Lia.
Import ListNotations.

Set Implicit Arguments.

(** ** Text and bytes *)

Definition str := list N.
Definition bytes := list byte.

Definition ord (a : ascii) : N := N_of_ascii a.

(** String literals of this file spell the JSON quotation mark as an
    apostrophe; [json_lit] puts the quotation marks back. *)
Definition json_lit (s : string) : string :=
  string_of_list_ascii
    (map (fun a => if Ascii.eqb a "'" then ascii_of_nat 34 else a)
         (list_ascii_of_string s)).

Definition str_of_string (s : string) : str :=
  map ord (list_ascii_of_string (json_lit s)).
Definition bytes_of_string (s : string) : bytes :=
  list_byte_of_string (json_lit s).

Definition LBRACE : N := 123.
Definition RBRACE : N := 125.

Definition len {A} (l : list A) : Z := Z.of_nat (length l).

(** Python slices [s[i:]] and [s[:i]]; a negative bound counts from the end,
    and bounds are clamped to the string. *)
Definition slice_index {A} (i : Z) (s : list A) : nat :=
  if (i <? 0)%Z then Z.to_nat (Z.max 0 (len s + i)) else Z.to_nat i.

Definition slice_from {A} (i : Z) (s : list A) : list A := skipn (slice_index i s) s.
Definition slice_to {A} (i : Z) (s : list A) : list A := firstn (slice_index i s) s.

Definition str_eqb (a b : str) : bool :=
  if list_eq_dec N.eq_dec a b then true else false.

(** ** get_json_object_end_index *)

Module Scanner.

(** The body of the loop's [if]/[elif] on [token]. *)
Definition bump (count : Z) (token : N) : Z :=
  if (token =? LBRACE)%N then (count + 1)%Z
  else if (token =? RBRACE)%N then (count - 1)%Z
  else count.

(** The [while index < len(json_string)] loop; [rest] is
    [json_string[index:]]. *)
Fixpoint scan (count index : Z) (rest : str) : Z :=
  match rest with
  | [] => (-1)%Z
  | token :: rest' =>
      let count := bump count token in
      if (count <? 0)%Z then (-1)%Z
      else if (count =? 0)%Z then (index + 1)%Z
      else scan count (index + 1)%Z rest'
  end.

Definition get_json_object_end_index (json_string : str) : Z := scan 0 0 json_string.

(** The values [count] takes after each token the loop looks at, up to and
    including the one on which it returns. *)
Fixpoint depths (count : Z) (rest : str) : list Z :=
  match rest with
  | [] => []
  | token :: rest' =>
      let count := bump count token in
      if (count <? 0)%Z then [count]
      else if (count =? 0)%Z then [count]
      else count :: depths count rest'
  end.

Definition running_depths (json_string : str) : list Z := depths 0 json_string.

(** A text the scanner frames exactly: run on the text alone it reports the
    whole text, and the text is longer than one character. *)
Definition framed (t : str) : Prop :=
  get_json_object_end_index t = len t /\ (1 < len t)%Z.

Definition framedb (t : str) : bool :=
  (get_json_object_end_index t =? len t)%Z && (1 <? len t)%Z.

End Scanner.

(** ** bytes.decode("utf8") and str.encode("utf8") *)

Module Utf8.

Local Open Scope N_scope.

Definition between (lo hi b : N) : bool := (lo <=? b) && (b <=? hi).

Definition continuation (b : N) : bool := between 0x80 0xBF b.

Definition lead2 (b0 : N) : bool := between 0xC2 0xDF b0.
Definition lead3 (b0 : N) : bool := between 0xE0 0xEF b0.
Definition lead4 (b0 : N) : bool := between 0xF0 0xF4 b0.

(** The byte after a three- or four-byte lead has a narrower range for the
    leads [E0], [ED], [F0] and [F4]: no overlong forms, no surrogates,
    nothing above U+10FFFF. *)
Definition second3 (b0 b1 : N) : bool :=
  if b0 =? 0xE0 then between 0xA0 0xBF b1
  else if b0 =? 0xED then between 0x80 0x9F b1
  else continuation b1.

Definition second4 (b0 b1 : N) : bool :=
  if b0 =? 0xF0 then between 0x90 0xBF b1
  else if b0 =? 0xF4 then between 0x80 0x8F b1
  else continuation b1.

Definition low6 (b : N) : N := N.land b 0x3F.

Definition cp2 (b0 b1 : N) : N := N.lor (N.shiftl (N.land b0 0x1F) 6) (low6 b1).
Definition cp3 (b0 b1 b2 : N) : N :=
  N.lor (N.shiftl (N.land b0 0x0F) 12) (N.lor (N.shiftl (low6 b1) 6) (low6 b2)).
Definition cp4 (b0 b1 b2 b3 : N) : N :=
  N.lor (N.shiftl (N.land b0 0x07) 18)
    (N.lor (N.shiftl (low6 b1) 12) (N.lor (N.shiftl (low6 b2) 6) (low6 b3))).

Definition push (c : N) (r : option str) : option str := option_map (cons c) r.

(** Strict decoding: [None] stands for [UnicodeDecodeError], raised on an
    invalid byte and on a sequence cut short by the end of the data. *)
Fixpoint decode (data : bytes) : option str :=
  match data with
  | [] => Some []
  | x0 :: r0 =>
      let b0 := Byte.to_N x0 in
      if b0 <? 0x80 then push b0 (decode r0)
      else if lead2 b0 then
        match r0 with
        | x1 :: r1 =>
            let b1 := Byte.to_N x1 in
            if continuation b1 then push (cp2 b0 b1) (decode r1) else None
        | _ => None
        end
      else if lead3 b0 then
        match r0 with
        | x1 :: x2 :: r2 =>
            let b1 := Byte.to_N x1 in
            let b2 := Byte.to_N x2 in
            if second3 b0 b1 && continuation b2
            then push (cp3 b0 b1 b2) (decode r2) else None
        | _ => None
        end
      else if lead4 b0 then
        match r0 with
        | x1 :: x2 :: x3 :: r3 =>
            let b1 := Byte.to_N x1 in
            let b2 := Byte.to_N x2 in
            let b3 := Byte.to_N x3 in
            if second4 b0 b1 && continuation b2 && continuation b3
            then push (cp4 b0 b1 b2 b3) (decode r3) else None
        | _ => None
        end
      else None
  end.

Definition byte_of (n : N) : byte :=
  match Byte.of_N n with Some b => b | None => x00 end.

Definition tail6 (c : N) (k : N) : byte :=
  byte_of (N.lor 0x80 (low6 (N.shiftr c (6 * k)))).

(** [None] stands for [UnicodeEncodeError] (a lone surrogate). *)
Definition encode_char (c : N) : option bytes :=
  if c <? 0x80 then Some [byte_of c]
  else if c <? 0x800 then Some [byte_of (N.lor 0xC0 (N.shiftr c 6)); tail6 c 0]
  else if between 0xD800 0xDFFF c then None
  else if c <? 0x10000 then
    Some [byte_of (N.lor 0xE0 (N.shiftr c 12)); tail6 c 1; tail6 c 0]
  else if c <? 0x110000 then
    Some [byte_of (N.lor 0xF0 (N.shiftr c 18)); tail6 c 2; tail6 c 1; tail6 c 0]
  else None.

Fixpoint encode (s : str) : option bytes :=
  match s with
  | [] => Some []
  | c :: s' =>
      match encode_char c, encode s' with
      | Some b, Some bs => Some (b ++ bs)
      | _, _ => None
      end
  end.

End Utf8.

(** ** The socket *)

(** What [recv] does once the scripted chunks are used up: the peer has
    closed (zero-length reads), the peer is silent (the call never comes
    back), or the connection is reset. *)
Inductive Tail := Eof | Hang | Reset.

Record Sock := mkSock {
  sk_fileno : nat;
  sk_connects : bool;          (* will connect() reach the server *)
  sk_pending : list bytes;     (* segments the server delivers, in order *)
  sk_tail : Tail;
  sk_sendable : nat;           (* how many sendall() calls still succeed *)
  sk_sent : list bytes;
  sk_closed : bool
}.

Inductive Event :=
| EvSocket (fd : nat)
| EvConnect (fd : nat) (path : string)
| EvSetBlocking (fd : nat)
| EvRecv (fd : nat) (bufsize : nat)
| EvSendAll (fd : nat) (data : bytes)
| EvClose (fd : nat).

Definition is_close (e : Event) : bool :=
  match e with EvClose _ => true | _ => false end.

Definition is_sendall (e : Event) : bool :=
  match e with EvSendAll _ _ => true | _ => false end.

Definition set_pending (p : list bytes) (sk : Sock) : Sock :=
  mkSock (sk_fileno sk) (sk_connects sk) p (sk_tail sk)
         (sk_sendable sk) (sk_sent sk) (sk_closed sk).

Definition BUFF_SIZE : nat := 4096.

(** ** Outcomes of a call *)

Section Outcomes.

(** [Msg]: the objects handed to [send] (commands, init messages).
    [Value]: decoded JSON values and the objects built from them. *)
Variables Msg Value : Type.

Inductive Exn :=
| RuntimeError (msg : string)
| AttributeError
| OSError (what : string)
| TypeError
| UnicodeDecodeError
| UnicodeEncodeError
| JSONDecodeError
| ForeignError (what : string)
| IncompatibleVersionException (need got : Value)
| ConnectionTypeRefused (mode : Value) (error_type error_message : option str)
| TaskCanceledException (error_message : option str)
| InternalServerException (command : Msg) (error_type error_message : option str).

Inductive Outcome (A : Type) :=
| Return (a : A)
| Raise (e : Exn)
| Block
| OutOfFuel.

End Outcomes.

Arguments Return {Msg Value A} a.
Arguments Raise {Msg Value A} e.
Arguments Block {Msg Value A}.
Arguments OutOfFuel {Msg Value A}.
Arguments AttributeError {Msg Value}.
Arguments TypeError {Msg Value}.
Arguments UnicodeDecodeError {Msg Value}.
Arguments UnicodeEncodeError {Msg Value}.
Arguments JSONDecodeError {Msg Value}.
Arguments RuntimeError {Msg Value} msg.
Arguments OSError {Msg Value} what.
Arguments ForeignError {Msg Value} what.
Arguments IncompatibleVersionException {Msg Value} need got.
Arguments ConnectionTypeRefused {Msg Value} mode error_type error_message.
Arguments TaskCanceledException {Msg Value} error_message.
Arguments InternalServerException {Msg Value} command error_type error_message.

Record Response (Value : Type) := mkResponse {
  success : bool;
  result : option Value;
  error_type : option str;
  error_message : option str
}.

(** ** What connections.py imports

    [json], [serverinitmessage] and [responses] are not part of this module;
    the connection code is read against any implementation of them. *)
Class Imports (Msg Value : Type) := {
  json_dumps : Msg -> option str;
  json_loads : str -> option Value;
  ServerInitMessage : Type;
  ServerInitMessage_from_json : Value -> Exn Msg Value + ServerInitMessage;
  PROTOCOL_VERSION : Value;
  sim_version : ServerInitMessage -> Value;
  sim_id : ServerInitMessage -> Value;
  is_compatible : ServerInitMessage -> bool;
  mode : Msg -> Value;
  (* json.loads(json_string, object_hook=responses.decode_response) *)
  loads_response : str -> Exn Msg Value + Response Value
}.

Record BaseConnection (Value : Type) := mkConn {
  debug : bool;
  socket : option Sock;
  id : option Value;
  input : str
}.

(** [net k] is the socket the [k]-th call of [socket.socket] creates, with
    the behaviour the server will show on it; [log] is every socket call
    made so far. *)
Record State (Value : Type) := mkState {
  self : BaseConnection Value;
  created : nat;
  net : nat -> Sock;
  log : list Event
}.

Section Connections.

Context {Msg Value : Type} {imports : Imports Msg Value}.

Local Abbreviation Exn := (Exn Msg Value).
Local Abbreviation Outcome := (Outcome Msg Value).
Local Abbreviation State := (State Value).
Local Abbreviation Response := (Response Value).

(** ** socket.socket methods *)

Definition sock_connect (sk : Sock) : Outcome unit * Sock :=
  if sk_closed sk then (Raise (OSError "Bad file descriptor"), sk)
  else if sk_connects sk then (Return tt, sk)
  else (Raise (OSError "connect failed"), sk).

Definition sock_setblocking (sk : Sock) : Outcome unit * Sock := (Return tt, sk).

Definition sock_recv (bufsize : nat) (sk : Sock) : Outcome bytes * Sock :=
  if sk_closed sk then (Raise (OSError "Bad file descriptor"), sk)
  else
    match sk_pending sk with
    | [] =>
        match sk_tail sk with
        | Eof => (Return [], sk)
        | Hang => (Block, sk)
        | Reset => (Raise (OSError "Connection reset by peer"), sk)
        end
    | c :: cs =>
        let part := firstn bufsize c in
        match skipn bufsize c with
        | [] => (Return part, set_pending cs sk)
        | rest => (Return part, set_pending (rest :: cs) sk)
        end
    end.

Definition sock_sendall (data : bytes) (sk : Sock) : Outcome unit * Sock :=
  if sk_closed sk then (Raise (OSError "Bad file descriptor"), sk)
  else
    match sk_sendable sk with
    | O => (Raise (OSError "Broken pipe"), sk)
    | S n =>
        (Return tt,
         mkSock (sk_fileno sk) (sk_connects sk) (sk_pending sk) (sk_tail sk)
                n (sk_sent sk ++ [data]) (sk_closed sk))
    end.

Definition sock_close (sk : Sock) : Outcome unit * Sock :=
  (Return tt,
   mkSock (sk_fileno sk) (sk_connects sk) (sk_pending sk) (sk_tail sk)
          (sk_sendable sk) (sk_sent sk) true).

(** ** The state monad of the methods *)

Definition M (A : Type) : Type := State -> Outcome A * State.

Definition ret {A} (a : A) : M A := fun st => (Return a, st).
Definition raise {A} (e : Exn) : M A := fun st => (Raise e, st).

Definition bind {A B} (c : M A) (k : A -> M B) : M B :=
  fun st =>
    match c st with
    | (Return a, st') => k a st'
    | (Raise e, st') => (Raise e, st')
    | (Block, st') => (Block, st')
    | (OutOfFuel, st') => (OutOfFuel, st')
    end.

Notation "x <- c ;; k" := (bind c (fun x => k))
  (at level 61, c at next level, right associativity).
Notation "c ;;; k" := (bind c (fun _ => k))
  (at level 61, right associativity).

Definition or_raise {A} (e : Exn) (o : option A) : M A :=
  match o with Some a => ret a | None => raise e end.

Definition or_reraise {A} (r : Exn + A) : M A :=
  match r with inr a => ret a | inl e => raise e end.

Definition set_socket (s : option Sock) (st : State) : State :=
  mkState (mkConn (debug (self st)) s (id (self st)) (input (self st)))
          (created st) (net st) (log st).

Definition set_id (i : option Value) (st : State) : State :=
  mkState (mkConn (debug (self st)) (socket (self st)) i (input (self st)))
          (created st) (net st) (log st).

Definition set_input (s : str) (st : State) : State :=
  mkState (mkConn (debug (self st)) (socket (self st)) (id (self st)) s)
          (created st) (net st) (log st).

Definition emit (e : Event) (st : State) : State :=
  mkState (self st) (created st) (net st) (log st ++ [e]).

(** [self.socket = socket.socket(AF_UNIX, SOCK_STREAM)] *)
Definition new_socket : M unit :=
  fun st =>
    let sk := net st (created st) in
    (Return tt,
     mkState (mkConn (debug (self st)) (Some sk) (id (self st)) (input (self st)))
             (S (created st)) (net st) (log st ++ [EvSocket (sk_fileno sk)])).

(** [self.socket.m(...)]: the attribute lookup fails on [None]; otherwise
    the call is logged and acts on the socket the connection holds. *)
Definition on_socket {A} (ev : nat -> Event) (m : Sock -> Outcome A * Sock) : M A :=
  fun st =>
    match socket (self st) with
    | None => (Raise AttributeError, st)
    | Some sk =>
        let (o, sk') := m sk in
        (o, emit (ev (sk_fileno sk)) (set_socket (Some sk') st))
    end.

Definition BaseConnection_init (dbg : bool) : BaseConnection Value :=
  mkConn dbg None None [].

(** ** BaseConnection methods *)

Definition close : M unit :=
  fun st =>
    match socket (self st) with
    | Some _ =>
        (on_socket EvClose sock_close ;;;
         fun st' => (Return tt, set_socket None st')) st
    | None => (Return tt, st)
    end.

Definition send (msg : Msg) : M unit :=
  json_string <- or_raise TypeError (json_dumps msg) ;;
  fun st =>
    match socket (self st) with
    | None => (Raise AttributeError, st)
    | Some _ =>
        (data <- or_raise UnicodeEncodeError (Utf8.encode json_string) ;;
         on_socket (fun fd => EvSendAll fd data) (sock_sendall data)) st
    end.

(** The inner [while True] of [receive_json]: read until a short part. *)
Fixpoint recv_parts (fuel : nat) (data : bytes) : M bytes :=
  match fuel with
  | O => fun st => (OutOfFuel, st)
  | S fuel' =>
      part <- on_socket (fun fd => EvRecv fd BUFF_SIZE) (sock_recv BUFF_SIZE) ;;
      let data := data ++ part in
      if length part <? BUFF_SIZE then ret data else recv_parts fuel' data
  end.

(** One successful match: keep the remainder, return the prefix. *)
Definition split_at (end_index : Z) (json_string : str) : M str :=
  fun st =>
    (Return (slice_to end_index json_string),
     set_input (slice_from end_index json_string) st).

(** The outer [while not found] of [receive_json]. *)
Fixpoint refill (fuel : nat) (json_string : str) : M str :=
  match fuel with
  | O => fun st => (OutOfFuel, st)
  | S fuel' =>
      data <- recv_parts fuel' [] ;;
      text <- or_raise UnicodeDecodeError (Utf8.decode data) ;;
      let json_string := json_string ++ text in
      let end_index := Scanner.get_json_object_end_index json_string in
      if (1 <? end_index)%Z then split_at end_index json_string
      else refill fuel' json_string
  end.

Definition receive_json (fuel : nat) : M str :=
  fun st =>
    match socket (self st) with
    | None => (Raise (RuntimeError "socket is closed or missing"), st)
    | Some _ =>
        let json_string := input (self st) in
        let end_index := Scanner.get_json_object_end_index json_string in
        if (1 <? end_index)%Z then split_at end_index json_string st
        else refill fuel json_string st
    end.

Definition receive_response (fuel : nat) : M Response :=
  json_string <- receive_json fuel ;;
  or_reraise (loads_response json_string).

Definition receive (fuel : nat) (cls_from_json : Value -> Exn + Value) : M Value :=
  json_string <- receive_json fuel ;;
  v <- or_raise JSONDecodeError (json_loads json_string) ;;
  or_reraise (cls_from_json v).

Definition connect (fuel : nat) (init_message : Msg) (socket_path : string) : M unit :=
  new_socket ;;;
  on_socket (fun fd => EvConnect fd socket_path) sock_connect ;;;
  on_socket EvSetBlocking sock_setblocking ;;;
  greeting <- on_socket (fun fd => EvRecv fd 50) (sock_recv 50) ;;
  text <- or_raise UnicodeDecodeError (Utf8.decode greeting) ;;
  v <- or_raise JSONDecodeError (json_loads text) ;;
  server_init_message <- or_reraise (ServerInitMessage_from_json v) ;;
  if negb (is_compatible server_init_message) then
    raise (IncompatibleVersionException PROTOCOL_VERSION
             (sim_version server_init_message))
  else
    (fun st => (Return tt, set_id (Some (sim_id server_init_message)) st)) ;;;
    send init_message ;;;
    response <- receive_response fuel ;;
    if negb (success response) then
      raise (ConnectionTypeRefused (mode init_message)
               (error_type response) (error_message response))
    else ret tt.

Definition TASK_CANCELED : str := str_of_string "TaskCanceledException".

Definition is_task_canceled (et : option str) : bool :=
  match et with Some s => str_eqb s TASK_CANCELED | None => false end.

Definition perform_command (fuel : nat) (command : Msg)
    (cls : option (Value -> Exn + Value)) : M Response :=
  send command ;;;
  response <- receive_response fuel ;;
  if success response then
    match cls, result response with
    | Some from_json, Some r =>
        r' <- or_reraise (from_json r) ;;
        ret (mkResponse (success response) (Some r')
                        (error_type response) (error_message response))
    | _, _ => ret response
    end
  else if is_task_canceled (error_type response) then
    raise (TaskCanceledException (error_message response))
  else
    raise (InternalServerException command
             (error_type response) (error_message response)).

(** [n] successive [receive_json] calls, collecting what they return. *)
Fixpoint receive_json_times (fuel : nat) (n : nat) : M (list str) :=
  match n with
  | O => ret []
  | S n' =>
      first <- receive_json fuel ;;
      others <- receive_json_times fuel n' ;;
      ret (first :: others)
  end.

End Connections.

(** ** BaseCommandConnection and SubscribeConnection

    The methods of the subclasses that do more than hand one command to
    [perform_command].  The command builders of [basecommands] and the
    [from_json] of [MachineModel] are not part of connections.py and are
    taken as given. *)

Module BaseCommandConnection.

Section Methods.

Context {Msg Value : Type} {imports : Imports Msg Value}.

Local Notation "x <- c ;; k" := (bind c (fun x => k))
  (at level 61, c at next level, right associativity).
Local Notation "c ;;; k" := (bind c (fun _ => k))
  (at level 61, right associativity).

(** [basecommands.get_object_model()] *)
Variable basecommands_get_object_model : Msg.
(** [MachineModel.from_json] *)
Variable MachineModel_from_json : Value -> Exn Msg Value + Value.

Definition get_object_model (fuel : nat) : M (option Value) :=
  res <- perform_command fuel basecommands_get_object_model
           (Some MachineModel_from_json) ;;
  ret (result res).

Definition get_machine_model (fuel : nat) : M (option Value) :=
  get_object_model fuel.

Definition get_serialized_object_model (fuel : nat) : M str :=
  send basecommands_get_object_model ;;;
  receive_json fuel.

Definition get_serialized_machine_model (fuel : nat) : M str :=
  get_serialized_object_model fuel.

End Methods.

End BaseCommandConnection.

Module SubscribeConnection.

Section Methods.

Context {Msg Value : Type} {imports : Imports Msg Value}.

Local Notation "x <- c ;; k" := (bind c (fun x => k))
  (at level 61, c at next level, right associativity).
Local Notation "c ;;; k" := (bind c (fun _ => k))
  (at level 61, right associativity).

(** [basecommands.acknowledge()] *)
Variable basecommands_acknowledge : Msg.
(** [MachineModel.from_json] *)
Variable MachineModel_from_json : Value -> Exn Msg Value + Value.

Definition get_machine_model (fuel : nat) : M Value :=
  machine_model <- receive fuel MachineModel_from_json ;;
  send basecommands_acknowledge ;;;
  ret machine_model.

Definition get_serialized_machine_model (fuel : nat) : M str :=
  machine_model_json <- receive_json fuel ;;
  send basecommands_acknowledge ;;;
  ret machine_model_json.

Definition get_machine_model_patch (fuel : nat) : M str :=
  patch_json <- receive_json fuel ;;
  send basecommands_acknowledge ;;;
  ret patch_json.

End Methods.

End SubscribeConnection.

(** ** A small implementation of the imports

    Enough of [json], [ServerInitMessage] and [decode_response] to run the
    methods on concrete traffic: the texts a test server sends are looked
    up in tables. *)

Module Fixture.

Inductive value := VInt (z : Z) | VText (s : str) | VGreeting (version ident : Z).

Record message := mkMessage { m_mode : value; m_json : string }.

Definition lookup {A} (table : list (string * A)) (s : str) : option A :=
  option_map snd (find (fun row => str_eqb (str_of_string (fst row)) s) table).

Definition greetings : list (string * value) :=
  [ ("{'version':11,'id':7}", VGreeting 11 7);
    ("{'version':3,'id':8}", VGreeting 3 8) ]%string.

Definition envelopes : list (string * Response value) :=
  [ ("{'success':true}", mkResponse true None None None);
    ("{'success':true,'result':5}", mkResponse true (Some (VInt 5)) None None);
    ("{'success':false,'errorType':'TaskCanceledException','errorMessage':'stop'}",
     mkResponse (Value:=value) false None
       (Some (str_of_string "TaskCanceledException")) (Some (str_of_string "stop")));
    ("{'success':false,'errorType':'ArgumentException','errorMessage':'bad'}",
     mkResponse (Value:=value) false None
       (Some (str_of_string "ArgumentException")) (Some (str_of_string "bad"))) ]%string.

Definition greeting_of (v : value) : Exn message value + (Z * Z) :=
  match v with
  | VGreeting version ident => inr (version, ident)
  | _ => inl TypeError
  end.

#[export] Instance imports : Imports message value := {|
  json_dumps := fun m => Some (str_of_string (m_json m));
  json_loads := lookup greetings;
  ServerInitMessage := (Z * Z)%type;
  ServerInitMessage_from_json := greeting_of;
  PROTOCOL_VERSION := VInt 11;
  sim_version := fun g => VInt (fst g);
  sim_id := fun g => VInt (snd g);
  is_compatible := fun g => (fst g =? 11)%Z;
  mode := m_mode;
  loads_response := fun s =>
    match lookup envelopes s with Some r => inr r | None => inl JSONDecodeError end
|}.

(** A socket on which the server delivers [chunks]; [tail] says what
    follows them. *)
Definition server (chunks : list string) (tail : Tail) : Sock :=
  mkSock 3 true (map bytes_of_string chunks) tail 8 [] false.

Definition world (sk : Sock) : State value :=
  mkState (BaseConnection_init false) 0 (fun _ => sk) [].

(** A connection that already holds [sk], with [buffer] read ahead. *)
Definition connected (sk : Sock) (buffer : string) : State value :=
  mkState (mkConn false (Some sk) (Some (VInt 7)) (str_of_string buffer))
          1 (fun _ => sk) [].

Definition canceled_reply : string :=
  "{'success':false,'errorType':'TaskCanceledException','errorMessage':'stop'}"%string.

(** A server whose greeting carries a protocol version the client rejects. *)
Definition old_server : Sock := server ["{'version':3,'id':8}"%string] Hang.

Definition command : message :=
  mkMessage (VText (str_of_string "command")) "{'command':'Flush'}".

Definition acknowledge : message :=
  mkMessage (VText (str_of_string "command")) "{'command':'Acknowledge'}".

Definition get_object_model_command : message :=
  mkMessage (VText (str_of_string "command")) "{'command':'GetObjectModel'}".

(** A stand-in for [MachineModel.from_json]: numbers are not models. *)
Definition model_of (v : value) : Exn message value + value :=
  match v with
  | VInt _ => inl TypeError
  | _ => inr v
  end.

(** An object of exactly [BUFF_SIZE] bytes, as bytes and as text. *)
Definition full_object_bytes : bytes :=
  bytes_of_string "{'k':'" ++ repeat x61 4088 ++ bytes_of_string "'}".

Definition full_object_text : str :=
  str_of_string "{'k':'" ++ repeat 97%N 4088 ++ str_of_string "'}".

(** A server that greets with the supported version. *)
Definition good_server (replies : list string) : Sock :=
  server ("{'version':11,'id':7}"%string :: replies) Hang.

End Fixture.

(** ** Observations on a run

    The vocabulary of the properties below: counts over the log of socket
    calls, relations between the state before and after a call, and the
    segments a socket is about to deliver. *)

Section Observations.

Context {Msg Value : Type}.

Local Abbreviation State := (State Value).
Local Abbreviation M := (M (Msg:=Msg) (Value:=Value)).

Definition closes (l : list Event) : nat := length (filter is_close l).
Definition sends (l : list Event) : nat := length (filter is_sendall l).

(** Every run of [c] relates the state it starts in to the one it ends in. *)
Definition respects {A} (R : State -> State -> Prop) (c : M A) : Prop :=
  forall st, R st (snd (c st)).

Definition same_socket (a b : option Sock) : Prop :=
  match a, b with
  | Some x, Some y => sk_fileno y = sk_fileno x /\ sk_closed y = sk_closed x
  | None, None => True
  | _, _ => False
  end.

(** The connection holds the same socket, as open or closed as it was, and
    no [close] call has been made in between. *)
Definition untouched (st st' : State) : Prop :=
  same_socket (socket (self st)) (socket (self st')) /\
  filter is_close (log st') = filter is_close (log st).

Definition keeps_input (st st' : State) : Prop := input (self st') = input (self st).

(** Between [st] and [st'] the connection's socket handed over exactly
    [data], from the front of what was pending. *)
Definition consumed (st st' : State) (data : bytes) : Prop :=
  exists sk sk',
    socket (self st) = Some sk /\ socket (self st') = Some sk' /\
    concat (sk_pending sk) = data ++ concat (sk_pending sk').

(** A segment one [recv] takes whole and that ends the inner loop. *)
Definition short (c : bytes) : bool := (length c <? BUFF_SIZE)%nat.

(** The connection's open socket is about to deliver the segments [cs],
    each short and decoding on its own, to the texts [ps]. *)
Definition feeding (st : State) (cs : list bytes) (ps : list str) : Prop :=
  exists sk,
    socket (self st) = Some sk /\ sk_closed sk = false /\ sk_pending sk = cs /\
    forallb short cs = true /\ map Utf8.decode cs = map Some ps.

End Observations.

(** ** Traces and brace depth *)

(** Opening braces minus closing braces. *)
Definition brace_depth (s : str) : Z :=
  (Z.of_nat (count_occ N.eq_dec s LBRACE) - Z.of_nat (count_occ N.eq_dec s RBRACE))%Z.

(** [n] calls of [recv(BUFF_SIZE)] on the socket [fd]. *)
Definition recvs (fd : nat) (n : nat) : list Event := repeat (EvRecv fd BUFF_SIZE) n.

(** What a socket is apart from the data still pending on it. *)
Definition endpoint (sk : Sock) : nat * bool * Tail * nat * list bytes * bool :=
  (sk_fileno sk, sk_connects sk, sk_tail sk, sk_sendable sk, sk_sent sk, sk_closed sk).

(** The socket after one successful [sendall(data)]. *)
Definition sent_on (data : bytes) (sk : Sock) : Sock :=
  mkSock (sk_fileno sk) (sk_connects sk) (sk_pending sk) (sk_tail sk)
         (pred (sk_sendable sk)) (sk_sent sk ++ [data]) (sk_closed sk).

Section Traces.

Context {Value : Type}.

(** From [st] to [st'] nothing happened but [recv(BUFF_SIZE)] calls on the
    connection's socket and assignments to [self.input]. *)
Definition reads (st st' : State Value) : Prop :=
  debug (self st') = debug (self st) /\
  id (self st') = id (self st) /\
  created st' = created st /\
  net st' = net st /\
  match socket (self st), socket (self st') with
  | Some sk, Some sk' =>
      endpoint sk' = endpoint sk /\
      exists n, log st' = log st ++ recvs (sk_fileno sk) n
  | None, None => log st' = log st
  | _, _ => False
  end.

End Traces.

(** ** ASCII text *)

(** Every character is below 128, as in the output of [json.dumps] with
    its default [ensure_ascii]. *)
Definition ascii_text (s : str) : bool := forallb (fun c => (c <? 128)%N) s.

(** ** Batches of reads *)

(** The inner loop of [receive_json] seen from the socket's script alone:
    the data gathered by reads of up to [BUFF_SIZE] bytes, up to and
    including the first shorter one, and the segments left pending.  With
    nothing pending a closed stream gives the short (empty) read; a
    silent or reset peer gives no batch, and neither do more than [reads]
    reads. *)
Fixpoint gather (reads : nat) (pending : list bytes) (tail : Tail) (data : bytes)
    : option (bytes * list bytes) :=
  match reads with
  | O => None
  | S reads' =>
      match pending with
      | [] =>
          match tail with
          | Eof => Some (data, [])
          | _ => None
          end
      | c :: cs =>
          let part := firstn BUFF_SIZE c in
          let pending' :=
            match skipn BUFF_SIZE c with
            | [] => cs
            | rest => rest :: cs
            end in
          if (length part <? BUFF_SIZE)%nat then Some (data ++ part, pending')
          else gather reads' pending' tail (data ++ part)
      end
  end.

(** The first [k] batches the socket hands to successive runs of the inner
    loop. *)
Fixpoint batches (reads : nat) (k : nat) (pending : list bytes) (tail : Tail)
    : option (list bytes) :=
  match k with
  | O => Some []
  | S k' =>
      match gather reads pending tail [] with
      | Some (b, pending') => option_map (cons b) (batches reads k' pending' tail)
      | None => None
      end
  end.

(** A text that is still open: each of its non-empty prefixes holds more
    opening than closing braces.  The empty text is one. *)
Definition still_openb (f : str) : bool :=
  forallb (fun j => (0 <? brace_depth (firstn j f))%Z) (seq 1 (length f)).

Section Feeding.

Context {Value : Type}.

(** The connection's open socket is about to hand the batches [bs] to the
    inner loop, each decoding on its own, to the texts [ps]. *)
Definition fed (reads : nat) (st : State Value) (bs : list bytes) (ps : list str) : Prop :=
  exists sk,
    socket (self st) = Some sk /\ sk_closed sk = false /\
    batches reads (length bs) (sk_pending sk) (sk_tail sk) = Some bs /\
    map Utf8.decode bs = map Some ps.

End Feeding.

(** * Properties *)

Unset Implicit Arguments.

(** ** The scanner *)

Section ScannerFacts.

Import Scanner.
Local Open Scope Z_scope.

Lemma len_app {A} (a b : list A) : len (a ++ b) = len a + len b.
Proof. unfold len. rewrite length_app. lia. Qed.

Lemma len_cons {A} (x : A) (l : list A) : len (x :: l) = 1 + len l.
Proof. unfold len. simpl length. lia. Qed.

Lemma len_nonneg {A} (l : list A) : 0 <= len l.
Proof. unfold len. lia. Qed.

Lemma scan_range (rest : str) : forall count index,
  0 <= index ->
  scan count index rest = -1 \/
  (index < scan count index rest <= index + len rest).
Proof.
  induction rest as [|token rest IH]; intros count index Hi; simpl.
  - now left.
  - rewrite len_cons. pose proof (len_nonneg rest).
    destruct (bump count token <? 0); [now left|].
    destruct (bump count token =? 0); [right; lia|].
    destruct (IH (bump count token) (index + 1)) as [E|E]; [lia| |]; [now left|right; lia].
Qed.

(** Once the scan has returned an index, text after it is never looked at. *)
Lemma scan_found_app (a r : str) : forall count index,
  0 <= index -> index < scan count index a ->
  scan count index (a ++ r) = scan count index a.
Proof.
  induction a as [|token a IH]; intros count index Hi; simpl.
  - lia.
  - destruct (bump count token <? 0); [reflexivity|].
    destruct (bump count token =? 0); [reflexivity|].
    intros Hf.
    destruct (scan_range a (bump count token) (index + 1)) as [R|R]; [lia|lia|].
    apply IH; lia.
Qed.

(** A scan that ends exactly at the end of the text has seen no return
    point before it: every shorter prefix is exhausted without a result. *)
Lemma scan_prefix_exhausted (p q : str) : forall count index,
  0 <= index -> q <> [] ->
  scan count index (p ++ q) = index + len (p ++ q) ->
  scan count index p = -1.
Proof.
  induction p as [|token p IH]; intros count index Hi Hq; simpl.
  - reflexivity.
  - rewrite len_cons.
    destruct (bump count token <? 0); [reflexivity|].
    destruct (bump count token =? 0); intros Hs.
    + exfalso. assert (len (p ++ q) = 0) as E by lia.
      unfold len in E. destruct (p ++ q) eqn:Epq; [|simpl in E; lia].
      apply app_eq_nil in Epq. tauto.
    + apply IH; [lia|assumption|lia].
Qed.

(** The prefix the scan cuts off is itself scanned to its end. *)
Lemma scan_firstn (s : str) : forall count index,
  0 <= index -> index < scan count index s ->
  scan count index (firstn (Z.to_nat (scan count index s - index)) s)
  = scan count index s.
Proof.
  induction s as [|token s IH]; intros count index Hi; simpl.
  - lia.
  - destruct (bump count token <? 0) eqn:E1; [lia|].
    destruct (bump count token =? 0) eqn:E2; intros Hf.
    + replace (index + 1 - index) with 1 by lia. simpl. now rewrite E1, E2.
    + destruct (scan_range s (bump count token) (index + 1)) as [R|R]; [lia|lia|].
      replace (Z.to_nat (scan (bump count token) (index + 1) s - index))
        with (S (Z.to_nat (scan (bump count token) (index + 1) s - (index + 1))))
        by lia.
      simpl. rewrite E1, E2. apply IH; lia.
Qed.

Lemma framed_app (t r : str) :
  framed t -> get_json_object_end_index (t ++ r) = len t.
Proof.
  intros [Ht Hl]. unfold get_json_object_end_index in *.
  rewrite scan_found_app; [assumption|lia|lia].
Qed.

Lemma framed_prefix (p q : str) :
  framed (p ++ q) -> q <> [] -> get_json_object_end_index p = -1.
Proof.
  intros [Ht _] Hq. unfold get_json_object_end_index in *.
  apply scan_prefix_exhausted with (q := q); [lia|assumption|lia].
Qed.

Lemma framedb_spec (t : str) : framedb t = true <-> framed t.
Proof.
  unfold framedb, framed. rewrite andb_true_iff, Z.eqb_eq, Z.ltb_lt. tauto.
Qed.

(** What a successful match cuts off is a frame. *)
Lemma slice_to_framed (s : str) :
  1 < get_json_object_end_index s ->
  framed (slice_to (get_json_object_end_index s) s).
Proof.
  intros H. unfold get_json_object_end_index in *.
  destruct (scan_range s 0 0) as [R|R]; [lia|lia|].
  unfold slice_to, slice_index.
  destruct (scan 0 0 s <? 0) eqn:E; [apply Z.ltb_lt in E; lia|].
  pose proof (scan_firstn s 0 0) as F. rewrite Z.sub_0_r in F.
  assert (len (firstn (Z.to_nat (scan 0 0 s)) s) = scan 0 0 s) as L.
  { unfold len in *. rewrite length_firstn. lia. }
  split; unfold get_json_object_end_index; rewrite L; [apply F; lia|lia].
Qed.

Lemma slice_to_from {A} (i : Z) (s : list A) : slice_to i s ++ slice_from i s = s.
Proof. apply firstn_skipn. Qed.

Lemma slice_to_app_len {A} (t r : list A) : slice_to (len t) (t ++ r) = t.
Proof.
  unfold slice_to, slice_index, len.
  destruct (Z.of_nat (length t) <? 0) eqn:E; [apply Z.ltb_lt in E; lia|].
  rewrite Nat2Z.id, firstn_app, Nat.sub_diag, firstn_all. simpl. apply app_nil_r.
Qed.

Lemma slice_from_app_len {A} (t r : list A) : slice_from (len t) (t ++ r) = r.
Proof.
  unfold slice_from, slice_index, len.
  destruct (Z.of_nat (length t) <? 0) eqn:E; [apply Z.ltb_lt in E; lia|].
  rewrite Nat2Z.id, skipn_app, Nat.sub_diag, skipn_all. reflexivity.
Qed.

(** A text that does not begin with a brace is at depth zero after its
    first character. *)
Lemma scan_leading_other (c : N) (r : str) :
  c <> LBRACE -> c <> RBRACE -> get_json_object_end_index (c :: r) = 1.
Proof.
  intros Hl Hr. unfold get_json_object_end_index, scan, bump.
  apply N.eqb_neq in Hl, Hr. now rewrite Hl, Hr.
Qed.

Lemma depths_negative (s : str) : forall count index,
  Exists (fun d => d < 0) (depths count s) -> scan count index s = -1.
Proof.
  induction s as [|token s IH]; intros count index; simpl.
  - intros H. inversion H.
  - destruct (bump count token <? 0) eqn:E1; [reflexivity|].
    destruct (bump count token =? 0) eqn:E2; intros H.
    + apply Exists_cons in H. destruct H as [H|H]; [|inversion H].
      apply Z.ltb_ge in E1. lia.
    + apply Exists_cons in H. destruct H as [H|H].
      * apply Z.ltb_ge in E1. lia.
      * now apply IH.
Qed.

(** From a positive depth the loop returns before the depth can turn
    negative. *)
Lemma depths_positive (s : str) : forall count,
  0 < count -> Forall (fun d => 0 <= d) (depths count s).
Proof.
  induction s as [|token s IH]; intros count H; simpl.
  - constructor.
  - destruct (bump count token <? 0) eqn:E1.
    + exfalso. apply Z.ltb_lt in E1. unfold bump in E1.
      destruct (token =? LBRACE)%N; [lia|]. destruct (token =? RBRACE)%N; lia.
    + apply Z.ltb_ge in E1.
      destruct (bump count token =? 0) eqn:E2.
      * constructor; [assumption|constructor].
      * apply Z.eqb_neq in E2. constructor; [assumption|]. apply IH. lia.
Qed.

End ScannerFacts.

(** ** Decoding *)

Section Utf8Facts.

Import Utf8.

Lemma push_some (c : N) (r : option str) (x : str) :
  push c r = Some x -> exists x', r = Some x' /\ x = c :: x'.
Proof.
  destruct r as [x'|]; simpl; intros H; [|discriminate].
  injection H as <-. now exists x'.
Qed.

Lemma push_app (c : N) (x' : str) (r : option str) :
  push c (option_map (app x') r) = option_map (app (c :: x')) r.
Proof. now destruct r. Qed.

Local Ltac step IH :=
  let x' := fresh "x'" in
  let H := fresh "H" in
  intros H; apply push_some in H as (x' & H & ->);
  rewrite (IH _ _ x'); [apply push_app | simpl in *; lia | exact H].

(** Decoding works character by character: data that decodes can be
    decoded ahead of whatever follows it. *)
Lemma decode_app_bounded (n : nat) : forall (a b : bytes) (x : str),
  (length a <= n)%nat -> decode a = Some x ->
  decode (a ++ b) = option_map (app x) (decode b).
Proof.
  induction n as [|n IH]; intros a b x Hn.
  - destruct a; [|simpl in Hn; lia]. simpl. intros [= <-].
    now destruct (decode b).
  - destruct a as [|x0 r0].
    { simpl. intros [= <-]. now destruct (decode b). }
    cbn [decode app]. cbv zeta.
    destruct (Byte.to_N x0 <? 128)%N; [step IH|].
    destruct (lead2 (Byte.to_N x0)).
    { destruct r0 as [|x1 r1]; [discriminate|]. cbn [app].
      destruct (continuation (Byte.to_N x1)); [step IH|discriminate]. }
    destruct (lead3 (Byte.to_N x0)).
    { destruct r0 as [|x1 [|x2 r2]]; try discriminate. cbn [app].
      destruct (second3 _ _ && continuation _); [step IH|discriminate]. }
    destruct (lead4 (Byte.to_N x0)); [|discriminate].
    destruct r0 as [|x1 [|x2 [|x3 r3]]]; try discriminate. cbn [app].
    destruct (second4 _ _ && continuation _ && continuation _);
      [step IH|discriminate].
Qed.

Lemma decode_app (a b : bytes) (x y : str) :
  decode a = Some x -> decode b = Some y -> decode (a ++ b) = Some (x ++ y).
Proof.
  intros Ha Hb.
  rewrite (decode_app_bounded (length a) a b x (le_n _) Ha), Hb. reflexivity.
Qed.

End Utf8Facts.

(** ** The connection *)

Section ConnectionFacts.

Context {Msg Value : Type} {imports : Imports Msg Value}.

Local Abbreviation State := (State Value).
Local Abbreviation M := (M (Msg:=Msg) (Value:=Value)).
Local Abbreviation Outcome := (Outcome Msg Value).
Local Abbreviation respects := (@respects Msg Value _).

Lemma on_socket_some {A} ev (m : Sock -> Outcome A * Sock) (st : State) sk :
  socket (self st) = Some sk ->
  on_socket ev m st
  = (fst (m sk), emit (ev (sk_fileno sk)) (set_socket (Some (snd (m sk))) st)).
Proof. unfold on_socket. intros ->. now destruct (m sk). Qed.

Lemma closes_app (l1 l2 : list Event) : closes (l1 ++ l2) = (closes l1 + closes l2)%nat.
Proof. unfold closes. now rewrite filter_app, length_app. Qed.

(** C8. Calling [close] twice in succession raises nothing, and the second
    call leaves the state as the first left it: the socket's [close] runs
    at most once over the two calls.  On a connection that was never
    connected [close] returns without touching anything. *)
Theorem close_twice (st : State) :
  let once := close (Msg:=Msg) st in
  let twice := close (Msg:=Msg) (snd once) in
  fst once = Return tt /\
  fst twice = Return tt /\
  snd twice = snd once /\
  socket (self (snd once)) = None /\
  (closes (log (snd twice)) <= closes (log st) + 1)%nat /\
  (socket (self st) = None -> snd once = st) /\
  (forall dbg n nt l,
     close (Msg:=Msg) (mkState (BaseConnection_init dbg) n nt l)
     = (Return tt, mkState (BaseConnection_init (Value:=Value) dbg) n nt l)).
Proof.
  destruct st as [[d [sk|] i inp] c nt l]; cbn;
    repeat split; try reflexivity; try discriminate;
    unfold closes; rewrite ?filter_app, ?length_app; cbn; lia.
Qed.

(** C9. With no socket (never connected, or closed) [receive_json] raises
    [RuntimeError] at once: the state after the call is the state before
    it, so nothing was read and the read-ahead buffer is intact. *)
Theorem receive_json_without_socket (fuel : nat) (st : State) :
  socket (self st) = None ->
  receive_json (Msg:=Msg) fuel st
  = (Raise (RuntimeError "socket is closed or missing"), st).
Proof. unfold receive_json. now intros ->. Qed.

Lemma str_eqb_eq (a b : str) : str_eqb a b = true <-> a = b.
Proof.
  unfold str_eqb. destruct (list_eq_dec N.eq_dec a b); split; congruence.
Qed.

Lemma is_task_canceled_spec (et : option str) :
  is_task_canceled et = true <-> et = Some (str_of_string "TaskCanceledException").
Proof.
  unfold is_task_canceled. destruct et as [s|].
  - rewrite str_eqb_eq. unfold TASK_CANCELED. split; congruence.
  - split; discriminate.
Qed.

(** C2. When the envelope received for a command has [success = false]:
    an [errorType] equal to the text TaskCanceledException makes
    [perform_command] raise [TaskCanceledException]; any other [errorType]
    makes it raise [InternalServerException] carrying the command, the
    [errorType] and the [errorMessage] as they were received. *)
Theorem perform_command_failure (fuel : nat) (command : Msg)
    (cls : option (Value -> Exn Msg Value + Value))
    (st st1 st2 : State) (response : Response Value) :
  send command st = (Return tt, st1) ->
  receive_response fuel st1 = (Return response, st2) ->
  success response = false ->
  (error_type response = Some (str_of_string "TaskCanceledException") ->
   perform_command fuel command cls st
   = (Raise (TaskCanceledException (error_message response)), st2)) /\
  (error_type response <> Some (str_of_string "TaskCanceledException") ->
   perform_command fuel command cls st
   = (Raise (InternalServerException command (error_type response)
               (error_message response)), st2)).
Proof.
  intros Hs Hr Hf. unfold perform_command, bind. rewrite Hs, Hr, Hf.
  split; intros H.
  - apply is_task_canceled_spec in H. now rewrite H.
  - destruct (is_task_canceled (error_type response)) eqn:E; [|reflexivity].
    apply is_task_canceled_spec in E. contradiction.
Qed.

(** C4. When the greeting read right after connecting decodes to a server
    init message that is not compatible, [connect] raises
    [IncompatibleVersionException]; the socket calls made by then are the
    creation, [connect], [setblocking] and the one [recv]: no [sendall] is
    made and nothing has been written to the socket. *)
Theorem connect_incompatible_before_send (fuel : nat) (init_message : Msg)
    (socket_path : string) (st : State) (greeting : bytes) (sk' : Sock)
    (text : str) (v : Value) (sim : ServerInitMessage) :
  let sk := net st (created st) in
  sk_closed sk = false ->
  sk_connects sk = true ->
  sock_recv (Msg:=Msg) (Value:=Value) 50 sk = (Return greeting, sk') ->
  Utf8.decode greeting = Some text ->
  json_loads text = Some v ->
  ServerInitMessage_from_json v = inr sim ->
  is_compatible sim = false ->
  exists st',
    connect fuel init_message socket_path st
    = (Raise (IncompatibleVersionException PROTOCOL_VERSION (sim_version sim)), st') /\
    log st' = log st ++ [EvSocket (sk_fileno sk); EvConnect (sk_fileno sk) socket_path;
                         EvSetBlocking (sk_fileno sk); EvRecv (sk_fileno sk) 50] /\
    sends (log st') = sends (log st) /\
    (exists s, socket (self st') = Some s /\ sk_sent s = sk_sent sk).
Proof.
  intros sk Hc Hconn Hrecv Hdec Hloads Hfrom Hcompat.
  unfold connect, bind, new_socket, on_socket. cbn [self socket].
  fold sk. unfold sock_connect. rewrite Hc, Hconn.
  cbn [self socket set_socket emit sock_setblocking].
  rewrite Hrecv. unfold or_raise, or_reraise. rewrite Hdec. unfold ret.
  rewrite Hloads, Hfrom, Hcompat. cbn [negb].
  eexists. split; [reflexivity|]. cbn [log self socket set_socket emit].
  repeat split.
  - rewrite <- !app_assoc. reflexivity.
  - unfold sends. rewrite !filter_app. cbn. rewrite !app_nil_r. reflexivity.
  - exists sk'. split; [reflexivity|].
    unfold sock_recv in Hrecv. rewrite Hc in Hrecv.
    destruct (sk_pending sk); [destruct (sk_tail sk); inversion Hrecv; reflexivity|].
    destruct (skipn 50 b); inversion Hrecv; reflexivity.
Qed.

(** *** What the methods leave alone

    A relation between the state before and after that every socket call
    other than [close] respects is respected by whole method bodies. *)

Section Respect.

Variable R : State -> State -> Prop.
Hypothesis R_refl : forall st, R st st.
Hypothesis R_trans : forall a b c, R a b -> R b c -> R a c.
Hypothesis R_call : forall st sk sk' e,
  socket (self st) = Some sk ->
  sk_fileno sk' = sk_fileno sk -> sk_closed sk' = sk_closed sk ->
  is_close e = false ->
  R st (emit e (set_socket (Some sk') st)).

Lemma respects_bind {A B} (c : M A) (k : A -> M B) :
  respects R c -> (forall a, respects R (k a)) -> respects R (bind c k).
Proof.
  intros Hc Hk st. unfold bind. specialize (Hc st).
  destruct (c st) as [[a|e| |] st']; simpl in *; try assumption.
  eapply R_trans; [eassumption|apply Hk].
Qed.

Lemma respects_ret {A} (a : A) : respects R (ret a).
Proof. intros st. apply R_refl. Qed.

Lemma respects_raise {A} (e : Exn Msg Value) : respects R (raise (A:=A) e).
Proof. intros st. apply R_refl. Qed.

Lemma respects_or_raise {A} e (o : option A) : respects R (or_raise e o).
Proof. destruct o; [apply respects_ret|apply respects_raise]. Qed.

Lemma respects_or_reraise {A} (r : Exn Msg Value + A) : respects R (or_reraise r).
Proof. destruct r; [apply respects_raise|apply respects_ret]. Qed.

Lemma respects_on_socket {A} ev (m : Sock -> Outcome A * Sock) :
  (forall fd, is_close (ev fd) = false) ->
  (forall sk, sk_fileno (snd (m sk)) = sk_fileno sk /\
              sk_closed (snd (m sk)) = sk_closed sk) ->
  respects R (on_socket ev m).
Proof.
  intros Hev Hm st. unfold on_socket.
  destruct (socket (self st)) as [sk|] eqn:E; [|apply R_refl].
  specialize (Hm sk). destruct (m sk) as [o sk']. simpl in *.
  apply R_call with (sk := sk); [assumption|apply Hm|apply Hm|apply Hev].
Qed.

Lemma sock_recv_same (n : nat) (sk : Sock) :
  sk_fileno (snd (sock_recv (Msg:=Msg) (Value:=Value) n sk)) = sk_fileno sk /\
  sk_closed (snd (sock_recv (Msg:=Msg) (Value:=Value) n sk)) = sk_closed sk.
Proof.
  unfold sock_recv. destruct (sk_closed sk) eqn:E; [now rewrite ?E|].
  destruct (sk_pending sk); [destruct (sk_tail sk); now rewrite ?E|].
  destruct (skipn n b); simpl; now rewrite ?E.
Qed.

Lemma sock_sendall_same (data : bytes) (sk : Sock) :
  sk_fileno (snd (sock_sendall (Msg:=Msg) (Value:=Value) data sk)) = sk_fileno sk /\
  sk_closed (snd (sock_sendall (Msg:=Msg) (Value:=Value) data sk)) = sk_closed sk.
Proof.
  unfold sock_sendall. destruct (sk_closed sk) eqn:E; [now rewrite ?E|].
  destruct (sk_sendable sk); simpl; now rewrite ?E.
Qed.

Lemma sock_connect_same (sk : Sock) :
  sk_fileno (snd (sock_connect (Msg:=Msg) (Value:=Value) sk)) = sk_fileno sk /\
  sk_closed (snd (sock_connect (Msg:=Msg) (Value:=Value) sk)) = sk_closed sk.
Proof.
  unfold sock_connect. destruct (sk_closed sk) eqn:E; [now rewrite ?E|].
  destruct (sk_connects sk); now rewrite ?E.
Qed.

Lemma respects_recv (n : nat) :
  respects R (on_socket (fun fd => EvRecv fd n) (sock_recv n)).
Proof. apply respects_on_socket; [reflexivity|apply sock_recv_same]. Qed.

Lemma respects_recv_parts (fuel : nat) : forall data,
  respects R (recv_parts fuel data).
Proof.
  induction fuel as [|fuel IH]; intros data; simpl.
  - intros st. apply R_refl.
  - apply respects_bind; [apply respects_recv|]. intros part.
    destruct (length part <? BUFF_SIZE)%nat; [apply respects_ret|apply IH].
Qed.

Lemma respects_send (msg : Msg) : respects R (send msg).
Proof.
  unfold send. apply respects_bind; [apply respects_or_raise|].
  intros json_string st. destruct (socket (self st)) eqn:E; [|apply R_refl].
  apply respects_bind; [apply respects_or_raise|]. intros data.
  apply respects_on_socket; [reflexivity|apply sock_sendall_same].
Qed.

(** The two attribute assignments besides [self.socket]. *)
Hypothesis R_input : forall s st, R st (set_input s st).
Hypothesis R_id : forall i st, R st (set_id i st).

Lemma respects_split_at (i : Z) (s : str) : respects R (split_at i s).
Proof. intros st. apply R_input. Qed.

Lemma respects_refill (fuel : nat) : forall json_string,
  respects R (refill fuel json_string).
Proof.
  induction fuel as [|fuel IH]; intros js; simpl.
  - intros st. apply R_refl.
  - apply respects_bind; [apply respects_recv_parts|]. intros data.
    apply respects_bind; [apply respects_or_raise|]. intros text.
    destruct (1 <? _)%Z; [apply respects_split_at|apply IH].
Qed.

Lemma respects_receive_json (fuel : nat) : respects R (receive_json fuel).
Proof.
  intros st. unfold receive_json.
  destruct (socket (self st)); [|apply R_refl].
  destruct (1 <? _)%Z; [apply respects_split_at|apply respects_refill].
Qed.

Lemma respects_receive_response (fuel : nat) : respects R (receive_response fuel).
Proof.
  apply respects_bind; [apply respects_receive_json|].
  intros s. apply respects_or_reraise.
Qed.

(** Everything [connect] does after creating the socket. *)
Lemma respects_connect_rest (fuel : nat) (init_message : Msg) (socket_path : string) :
  exists rest : M unit,
    connect fuel init_message socket_path = bind new_socket (fun _ => rest) /\
    respects R rest.
Proof.
  eexists. split; [reflexivity|].
  apply respects_bind.
  { apply respects_on_socket; [reflexivity|apply sock_connect_same]. }
  intros _. apply respects_bind.
  { apply respects_on_socket; [reflexivity|]. intros sk. now split. }
  intros _. apply respects_bind; [apply respects_recv|]. intros greeting.
  apply respects_bind; [apply respects_or_raise|]. intros text.
  apply respects_bind; [apply respects_or_raise|]. intros v.
  apply respects_bind; [apply respects_or_reraise|]. intros sim.
  destruct (negb (is_compatible sim)); [apply respects_raise|].
  apply respects_bind; [intros st; apply R_id|]. intros _.
  apply respects_bind; [apply respects_send|]. intros _.
  apply respects_bind; [apply respects_receive_response|]. intros response.
  destruct (negb (success response)); [apply respects_raise|apply respects_ret].
Qed.

End Respect.

(** *** The handshake does not clean up after itself *)

Lemma untouched_refl (st : State) : untouched st st.
Proof. split; [|reflexivity]. unfold same_socket. now destruct (socket (self st)). Qed.

Lemma untouched_trans (a b c : State) : untouched a b -> untouched b c -> untouched a c.
Proof.
  unfold untouched, same_socket. intros [S1 L1] [S2 L2]. split; [|congruence].
  destruct (socket (self a)), (socket (self b)), (socket (self c));
    try tauto; destruct S1, S2; split; congruence.
Qed.

Lemma untouched_call (st : State) (sk sk' : Sock) (e : Event) :
  socket (self st) = Some sk ->
  sk_fileno sk' = sk_fileno sk -> sk_closed sk' = sk_closed sk ->
  is_close e = false ->
  untouched st (emit e (set_socket (Some sk') st)).
Proof.
  intros Hs Hf Hc He. unfold untouched. cbn. rewrite Hs. split; [now split|].
  rewrite filter_app. cbn. rewrite He. apply app_nil_r.
Qed.

Lemma untouched_input (s : str) (st : State) : untouched st (set_input s st).
Proof. split; [|reflexivity]. cbn. unfold same_socket. now destruct (socket (self st)). Qed.

Lemma untouched_id (i : option Value) (st : State) : untouched st (set_id i st).
Proof. split; [|reflexivity]. cbn. unfold same_socket. now destruct (socket (self st)). Qed.

(** C3, as the code has it. [connect] has no cleanup path: when it raises,
    at whichever step, the connection still holds the socket the call
    created, that socket is still open and no [close] call was made on
    it.  Releasing it is left to the caller: a [close] after the failure
    closes that socket and drops it. *)
Theorem connect_failure_keeps_socket (fuel : nat) (init_message : Msg)
    (socket_path : string) (st st' : State) (e : Exn Msg Value) :
  sk_closed (net st (created st)) = false ->
  connect fuel init_message socket_path st = (Raise e, st') ->
  exists sk,
    socket (self st') = Some sk /\
    sk_fileno sk = sk_fileno (net st (created st)) /\
    sk_closed sk = false /\
    closes (log st') = closes (log st) /\
    exists st'',
      close (Msg:=Msg) st' = (Return tt, st'') /\
      socket (self st'') = None /\
      log st'' = log st' ++ [EvClose (sk_fileno sk)].
Proof.
  intros Hopen Hrun.
  destruct (respects_connect_rest untouched untouched_refl untouched_trans
              untouched_call untouched_input untouched_id
              fuel init_message socket_path) as (rest & Hdef & Hrest).
  rewrite Hdef in Hrun. unfold bind, new_socket in Hrun.
  match type of Hrun with rest ?s = _ => specialize (Hrest s) end.
  rewrite Hrun in Hrest. destruct Hrest as [Hs Hl]. cbn in Hs, Hl.
  destruct (socket (self st')) as [sk|] eqn:Esk; [|contradiction].
  destruct Hs as [Hf Hc]. exists sk. repeat split.
  - assumption.
  - congruence.
  - unfold closes. rewrite Hl, filter_app. cbn. now rewrite app_nil_r.
  - unfold close. rewrite Esk. unfold bind.
    rewrite (on_socket_some _ _ _ _ Esk). cbn. eexists. repeat split.
Qed.

(** *** A buffer that does not begin with a brace *)

Lemma recv_parts_keeps_input (fuel : nat) (data : bytes) :
  respects keeps_input (recv_parts fuel data).
Proof.
  apply respects_recv_parts; unfold keeps_input; [reflexivity|congruence|].
  reflexivity.
Qed.

Lemma refill_leading_other (c : N) :
  c <> LBRACE -> c <> RBRACE ->
  forall (fuel : nat) (r : str) (st : State),
    (forall s, fst (refill (Msg:=Msg) fuel (c :: r) st) <> Return s) /\
    input (self (snd (refill (Msg:=Msg) fuel (c :: r) st))) = input (self st).
Proof.
  intros Hl Hr. induction fuel as [|fuel IH]; intros r st.
  - cbn. split; [discriminate|reflexivity].
  - cbn [refill]. unfold bind.
    pose proof (recv_parts_keeps_input fuel [] st) as K. unfold keeps_input in K.
    revert K. destruct (recv_parts fuel [] st) as [[data|e| |] st1]; intros K;
      cbn [fst snd] in *; try (split; [discriminate|assumption]).
    destruct (Utf8.decode data) as [text|]; cbn [or_raise ret raise].
    + rewrite <- app_comm_cons, (scan_leading_other c _ Hl Hr).
      change (1 <? 1)%Z with false. cbv iota.
      destruct (IH (r ++ text) st1) as [I1 I2]. split; [assumption|congruence].
    + cbn [fst snd]. split; [discriminate|assumption].
Qed.

(** C10. A non-empty text whose first character is neither brace has end
    index 1.  [receive_json] only splits at an index above 1, so with such
    a text in the read-ahead buffer no call ever returns a frame, however
    much is read after it, and the buffer is left as it was, leading
    character included. *)
Theorem leading_other_never_framed (c : N) (r : str) :
  c <> LBRACE -> c <> RBRACE ->
  Scanner.get_json_object_end_index (c :: r) = 1%Z /\
  forall (fuel : nat) (st : State),
    input (self st) = c :: r ->
    (forall s, fst (receive_json (Msg:=Msg) fuel st) <> Return s) /\
    input (self (snd (receive_json (Msg:=Msg) fuel st))) = c :: r.
Proof.
  intros Hl Hr. split; [now apply scan_leading_other|].
  intros fuel st Hin. unfold receive_json.
  destruct (socket (self st)); [|split; [discriminate|assumption]].
  rewrite Hin, (scan_leading_other c r Hl Hr).
  change (1 <? 1)%Z with false. cbv iota.
  destruct (refill_leading_other c Hl Hr fuel r st) as [I1 I2].
  split; [assumption|congruence].
Qed.

(** *** A closed transport *)

Lemma refill_spins (fuel : nat) : forall (json_string : str) (st : State) (sk : Sock),
  socket (self st) = Some sk ->
  sk_closed sk = false -> sk_pending sk = [] -> sk_tail sk = Eof ->
  (Scanner.get_json_object_end_index json_string <= 1)%Z ->
  fst (refill (Msg:=Msg) fuel json_string st) = OutOfFuel.
Proof.
  induction fuel as [|fuel IH]; intros js st sk Hs Hc Hp Ht Hi; [reflexivity|].
  cbn [refill]. unfold bind at 1.
  destruct fuel as [|fuel']; [reflexivity|].
  cbn [recv_parts]. unfold bind at 1.
  rewrite (on_socket_some _ _ _ _ Hs). unfold sock_recv. rewrite Hc, Hp, Ht.
  cbn [fst snd length app]. change (0 <? BUFF_SIZE)%nat with true. cbv iota.
  unfold ret at 1. unfold bind. cbn [Utf8.decode or_raise ret].
  rewrite app_nil_r.
  destruct (1 <? Scanner.get_json_object_end_index js)%Z eqn:E;
    [apply Z.ltb_lt in E; lia|].
  apply IH with (sk := sk); try assumption. reflexivity.
Qed.

(** C5, on the code. With the peer gone (every [recv] returns no bytes)
    and no complete object in the buffer, [receive_json] raises nothing:
    whatever the number of loop iterations allowed, it is still inside the
    [while not found] loop when they run out. *)
Theorem receive_json_spins_at_eof (fuel : nat) (st : State) (sk : Sock) :
  socket (self st) = Some sk ->
  sk_closed sk = false -> sk_pending sk = [] -> sk_tail sk = Eof ->
  (Scanner.get_json_object_end_index (input (self st)) <= 1)%Z ->
  fst (receive_json (Msg:=Msg) fuel st) = OutOfFuel.
Proof.
  intros Hs Hc Hp Ht Hi. unfold receive_json. rewrite Hs.
  destruct (1 <? _)%Z eqn:E; [apply Z.ltb_lt in E; lia|].
  now apply refill_spins with (sk := sk).
Qed.

(** *** What a successful call takes from the transport *)

Lemma sock_recv_consumes (n : nat) (sk sk' : Sock) (part : bytes) :
  sock_recv (Msg:=Msg) (Value:=Value) n sk = (Return part, sk') ->
  concat (sk_pending sk) = part ++ concat (sk_pending sk').
Proof.
  unfold sock_recv. destruct (sk_closed sk); [discriminate|].
  destruct (sk_pending sk) as [|c cs] eqn:Ep.
  - destruct (sk_tail sk); intros [= <- <-]. now rewrite Ep.
  - destruct (skipn n c) as [|b rest] eqn:Es; intros [= <- <-]; cbn.
    + rewrite <- (firstn_skipn n c) at 1. now rewrite Es, app_nil_r.
    + rewrite <- (firstn_skipn n c) at 1. now rewrite Es, <- app_assoc.
Qed.

Lemma consumed_trans (a b c : State) (d1 d2 : bytes) :
  consumed a b d1 -> consumed b c d2 -> consumed a c (d1 ++ d2).
Proof.
  intros (sa & sb & Ha & Hb & E1) (sb' & sc & Hb' & Hc & E2).
  rewrite Hb in Hb'. injection Hb' as <-.
  exists sa, sc. repeat split; try assumption.
  now rewrite E1, E2, app_assoc.
Qed.

Lemma recv_parts_consumes (fuel : nat) :
  forall (data data' : bytes) (st st' : State),
    recv_parts (Msg:=Msg) fuel data st = (Return data', st') ->
    exists got, data' = data ++ got /\ consumed st st' got /\
                input (self st') = input (self st).
Proof.
  induction fuel as [|fuel IH]; intros data data' st st'; [discriminate|].
  cbn [recv_parts]. unfold bind.
  destruct (socket (self st)) as [sk|] eqn:Hs;
    [|unfold on_socket; rewrite Hs; discriminate].
  rewrite (on_socket_some _ _ _ _ Hs).
  destruct (sock_recv BUFF_SIZE sk) as [[part|e| |] sk1] eqn:Er;
    cbn [fst snd]; try discriminate.
  apply sock_recv_consumes in Er.
  assert (consumed st (emit (EvRecv (sk_fileno sk) BUFF_SIZE)
                         (set_socket (Some sk1) st)) part) as C1.
  { exists sk, sk1. repeat split; assumption. }
  destruct (length part <? BUFF_SIZE)%nat.
  - intros [= <- <-]. exists part. repeat split. assumption.
  - intros Hrun. apply IH in Hrun as (got & -> & C2 & Hin).
    exists (part ++ got). rewrite app_assoc. repeat split.
    + eapply consumed_trans; eassumption.
    + exact Hin.
Qed.

Lemma refill_consumes (fuel : nat) :
  forall (json_string s : str) (st st' : State),
    refill (Msg:=Msg) fuel json_string st = (Return s, st') ->
    exists data text,
      consumed st st' data /\ Utf8.decode data = Some text /\
      (1 < Scanner.get_json_object_end_index (json_string ++ text))%Z /\
      s = slice_to (Scanner.get_json_object_end_index (json_string ++ text))
                   (json_string ++ text) /\
      input (self st')
      = slice_from (Scanner.get_json_object_end_index (json_string ++ text))
                   (json_string ++ text).
Proof.
  induction fuel as [|fuel IH]; intros js s st st'; [discriminate|].
  cbn [refill]. unfold bind.
  destruct (recv_parts fuel [] st) as [[d1|e| |] st1] eqn:Er; try discriminate.
  apply recv_parts_consumes in Er as (got & -> & C1 & _). cbn [app].
  destruct (Utf8.decode got) as [t1|] eqn:Ed; cbn [or_raise ret raise];
    [|discriminate].
  destruct (1 <? Scanner.get_json_object_end_index (js ++ t1))%Z eqn:Ei.
  - unfold split_at. intros [= <- <-]. exists got, t1.
    apply Z.ltb_lt in Ei. destruct C1 as (sk & sk1 & ? & ? & ?).
    split; [exists sk, sk1; now repeat split|]. now repeat split.
  - intros Hrun. apply IH in Hrun as (d2 & t2 & C2 & Hd & Hi & Hs & Hin).
    exists (got ++ d2), (t1 ++ t2). rewrite app_assoc.
    repeat split; try assumption.
    + eapply consumed_trans; eassumption.
    + now apply decode_app.
Qed.

(** What a returning call has taken and where it has cut. *)
Lemma receive_json_cut (fuel : nat) (st st' : State) (s : str) :
  receive_json (Msg:=Msg) fuel st = (Return s, st') ->
  exists data text,
    consumed st st' data /\
    Utf8.decode data = Some text /\
    (1 < Scanner.get_json_object_end_index (input (self st) ++ text))%Z /\
    s = slice_to (Scanner.get_json_object_end_index (input (self st) ++ text))
                 (input (self st) ++ text) /\
    input (self st')
    = slice_from (Scanner.get_json_object_end_index (input (self st) ++ text))
                 (input (self st) ++ text).
Proof.
  unfold receive_json.
  destruct (socket (self st)) as [sk|] eqn:Hs; [|discriminate].
  destruct (1 <? Scanner.get_json_object_end_index (input (self st)))%Z eqn:Ei.
  - unfold split_at. intros [= <- <-]. apply Z.ltb_lt in Ei.
    exists [], []. rewrite app_nil_r. cbn [input self set_input].
    split; [exists sk, sk; now repeat split|]. now repeat split.
  - intros Hrun. now apply refill_consumes in Hrun.
Qed.

(** *** Frames delivered in pieces *)

Lemma app_split_le {A} (a b c d : list A) :
  a ++ b = c ++ d -> (length c <= length a)%nat ->
  exists l, a = c ++ l /\ d = l ++ b.
Proof.
  intros E L. apply app_eq_app in E as [l [[E1 E2]|[E1 E2]]].
  - exists l. split; assumption.
  - subst c. rewrite length_app in L. destruct l; [|simpl in L; lia].
    exists []. simpl in E2. subst b. rewrite !app_nil_r. split; reflexivity.
Qed.

Lemma app_split_lt {A} (a b c d : list A) :
  a ++ b = c ++ d -> (length a < length c)%nat ->
  exists l, c = a ++ l /\ l <> [] /\ b = l ++ d.
Proof.
  intros E L. apply app_eq_app in E as [l [[E1 E2]|[E1 E2]]].
  - subst a. rewrite length_app in L. lia.
  - exists l. repeat split; try assumption.
    intros ->. rewrite app_nil_r in E1. subst c. lia.
Qed.

Lemma refill_S (fuel : nat) (json_string : str) (st : State) :
  refill (Msg:=Msg) (S fuel) json_string st
  = bind (recv_parts fuel [])
      (fun data =>
         bind (or_raise UnicodeDecodeError (Utf8.decode data))
           (fun text =>
              if (1 <? Scanner.get_json_object_end_index (json_string ++ text))%Z
              then split_at (Scanner.get_json_object_end_index (json_string ++ text))
                            (json_string ++ text)
              else refill fuel (json_string ++ text))) st.
Proof. reflexivity. Qed.

(** A short segment is one pass through the inner loop. *)
Lemma recv_parts_short (fuel : nat) (st : State) (sk : Sock) (c : bytes) (cs : list bytes) :
  socket (self st) = Some sk -> sk_closed sk = false ->
  sk_pending sk = c :: cs -> short c = true ->
  recv_parts (Msg:=Msg) (S fuel) [] st
  = (Return c, emit (EvRecv (sk_fileno sk) BUFF_SIZE)
                 (set_socket (Some (set_pending cs sk)) st)).
Proof.
  intros Hs Hc Hp Hshort. cbn [recv_parts]. unfold bind.
  rewrite (on_socket_some _ _ _ _ Hs). unfold sock_recv. rewrite Hc, Hp.
  unfold short in Hshort. pose proof Hshort as Hlt. apply Nat.ltb_lt in Hlt.
  rewrite (skipn_all2 c) by lia. rewrite (firstn_all2 c) by lia.
  cbn [fst snd app]. now rewrite Hshort.
Qed.

Lemma refill_delivers (t rest : str) :
  Scanner.framed t ->
  forall (cs : list bytes) (ps : list str) (json_string : str) (st : State) (fuel : nat),
    feeding st cs ps ->
    json_string ++ concat ps = t ++ rest ->
    (length json_string < length t)%nat ->
    (length cs < fuel)%nat ->
    exists st' cs' ps',
      refill (Msg:=Msg) fuel json_string st = (Return t, st') /\
      feeding st' cs' ps' /\
      input (self st') ++ concat ps' = rest /\
      (length cs' <= length cs)%nat.
Proof.
  intros Ht. induction cs as [|c cs IH]; intros ps js st fuel F E Hjs Hfuel;
    destruct F as (sk & Hs & Hc & Hp & Hshort & Hdec).
  - destruct ps; [|discriminate]. cbn in E. rewrite app_nil_r in E.
    subst js. rewrite length_app in Hjs. lia.
  - destruct ps as [|p ps]; [discriminate|].
    cbn in Hdec. injection Hdec as Hd Hdec.
    cbn in Hshort. apply andb_true_iff in Hshort as [Hc1 Hshort].
    destruct fuel as [|[|fuel]]; [simpl in Hfuel; lia|simpl in Hfuel; lia|].
    rewrite refill_S. unfold bind at 1.
    rewrite (recv_parts_short fuel st sk c cs Hs Hc Hp Hc1).
    unfold bind. rewrite Hd. cbn [or_raise ret].
    set (st1 := emit _ _).
    assert (feeding st1 cs ps) as F1.
    { exists (set_pending cs sk). subst st1. cbn. now repeat split. }
    cbn [concat] in E. rewrite app_assoc in E.
    destruct (Nat.le_gt_cases (length t) (length (js ++ p))) as [L|L].
    + apply app_split_le in E as (l & E1 & E2); [|assumption].
      rewrite E1, (framed_app t l Ht).
      destruct Ht as [_ Hlen]. apply Z.ltb_lt in Hlen. rewrite Hlen.
      unfold split_at. rewrite slice_to_app_len, slice_from_app_len.
      exists (set_input l st1), cs, ps. repeat split.
      * destruct F1 as (sk1 & ? & ? & ? & ? & ?). exists sk1. now repeat split.
      * now symmetry.
      * simpl. lia.
    + pose proof E as E'. apply app_split_lt in E' as (l & E1 & Hl & E2); [|assumption].
      assert (Scanner.get_json_object_end_index (js ++ p) = (-1)%Z) as Hi.
      { apply framed_prefix with (q := l); [now rewrite <- E1|assumption]. }
      rewrite Hi. change (1 <? -1)%Z with false. cbv iota.
      destruct (IH ps (js ++ p) st1 (S fuel) F1 E L) as (st' & cs' & ps' & R & F' & I & Hle).
      { simpl in Hfuel. lia. }
      exists st', cs', ps'. repeat split; try assumption. simpl. lia.
Qed.

Lemma receive_json_delivers (t rest : str) (cs : list bytes) (ps : list str)
    (st : State) (fuel : nat) :
  Scanner.framed t ->
  feeding st cs ps ->
  input (self st) ++ concat ps = t ++ rest ->
  (length cs < fuel)%nat ->
  exists st' cs' ps',
    receive_json (Msg:=Msg) fuel st = (Return t, st') /\
    feeding st' cs' ps' /\
    input (self st') ++ concat ps' = rest /\
    (length cs' <= length cs)%nat.
Proof.
  intros Ht F E Hfuel. unfold receive_json.
  pose proof F as (sk & Hs & _). rewrite Hs.
  destruct (Nat.le_gt_cases (length t) (length (input (self st)))) as [L|L].
  - apply app_split_le in E as (l & E1 & E2); [|assumption].
    rewrite E1, (framed_app t l Ht).
    pose proof Ht as [_ Hlen]. apply Z.ltb_lt in Hlen. rewrite Hlen.
    unfold split_at. rewrite slice_to_app_len, slice_from_app_len.
    exists (set_input l st), cs, ps. repeat split.
    + destruct F as (sk1 & ? & ? & ? & ? & ?). exists sk1. now repeat split.
    + now symmetry.
    + lia.
  - pose proof E as E'. apply app_split_lt in E' as (l & E1 & Hl & E2); [|assumption].
    assert (Scanner.get_json_object_end_index (input (self st)) = (-1)%Z) as Hi.
    { apply framed_prefix with (q := l); [now rewrite <- E1|assumption]. }
    rewrite Hi. change (1 <? -1)%Z with false. cbv iota.
    now apply refill_delivers with (cs := cs) (ps := ps) (rest := rest).
Qed.

Lemma receive_json_times_delivers (fuel : nat) : forall (texts : list str)
    (cs : list bytes) (ps : list str) (st : State),
  forallb Scanner.framedb texts = true ->
  feeding st cs ps ->
  input (self st) ++ concat ps = concat texts ->
  (length cs < fuel)%nat ->
  exists st',
    receive_json_times (Msg:=Msg) fuel (length texts) st = (Return texts, st') /\
    input (self st') = [].
Proof.
  induction texts as [|t texts IH]; intros cs ps st Hfr F E Hfuel.
  - cbn. exists st. split; [reflexivity|].
    cbn in E. now apply app_eq_nil in E.
  - cbn in Hfr. apply andb_true_iff in Hfr as [Ht Hfr].
    apply framedb_spec in Ht. cbn [concat] in E.
    destruct (receive_json_delivers t (concat texts) cs ps st fuel Ht F E Hfuel)
      as (st1 & cs1 & ps1 & R1 & F1 & E1 & Hle).
    destruct (IH cs1 ps1 st1 Hfr F1 E1) as (st' & R' & Hin); [lia|].
    exists st'. split; [|assumption].
    cbn [length receive_json_times]. unfold bind. rewrite R1, R'. reflexivity.
Qed.

End ConnectionFacts.

(** ** Unbalanced input *)

Lemma bump_cases (count : Z) (token : N) :
  (token = RBRACE /\ Scanner.bump count token = count - 1)%Z \/
  (token <> RBRACE /\ count <= Scanner.bump count token)%Z.
Proof.
  unfold Scanner.bump.
  destruct (token =? LBRACE)%N eqn:E1; [right|].
  - apply N.eqb_eq in E1. subst token. split; [discriminate|lia].
  - destruct (token =? RBRACE)%N eqn:E2.
    + left. apply N.eqb_eq in E2. now split.
    + right. apply N.eqb_neq in E2. split; [assumption|lia].
Qed.

(** The loop can only see a negative depth at the very first token. *)
Lemma negative_depth_iff_leading_rbrace (s : str) :
  Exists (fun d => d < 0)%Z (Scanner.running_depths s) <-> exists r, s = RBRACE :: r.
Proof.
  unfold Scanner.running_depths. split.
  - destruct s as [|token s]; cbn [Scanner.depths]; [intros H; inversion H|].
    destruct (bump_cases 0 token) as [[-> _]|[Hne Hb]]; [intros _; now exists s|].
    destruct (Scanner.bump 0 token <? 0)%Z eqn:E1; [apply Z.ltb_lt in E1; lia|].
    destruct (Scanner.bump 0 token =? 0)%Z eqn:E2; intros H.
    + apply Exists_cons in H as [H|H]; [lia|inversion H].
    + apply Z.eqb_neq in E2. apply Exists_cons in H as [H|H]; [lia|].
      exfalso. pose proof (depths_positive s (Scanner.bump 0 token)) as P.
      apply Exists_exists in H as (d & Hin & Hd).
      rewrite Forall_forall in P. specialize (P ltac:(lia) d Hin). lia.
  - intros [r ->]. cbn. constructor. lia.
Qed.

(** C7. Whenever the running depth of the scan turns negative, that is
    when the loop meets a closing brace with no open brace before it,
    [get_json_object_end_index] returns -1. *)
Theorem negative_depth_returns_minus_one (s : str) :
  Exists (fun d => d < 0)%Z (Scanner.running_depths s) ->
  Scanner.get_json_object_end_index s = (-1)%Z.
Proof. apply depths_negative. Qed.

(** * Runs on concrete traffic *)

Section Runs.

Import Fixture.
Local Open Scope string_scope.

Local Abbreviation receive_json' := (receive_json (Msg:=message) (Value:=value)).

Example str_of_string_quotes :
  str_of_string "{'a':1}" = [123; 34; 97; 34; 58; 49; 125]%N.
Proof. reflexivity. Qed.

Example end_index_samples :
  map (fun s => Scanner.get_json_object_end_index (str_of_string s))
      [""; "{}"; "{'a':{'b':2}}{"; "{'a':"; "}"; "x{}"; "{'a':'}'}"]
  = [-1; 2; 13; -1; -1; 1; 7]%Z.
Proof. reflexivity. Qed.

Lemma negative_depth_returns_minus_one_witness :
  Scanner.get_json_object_end_index (str_of_string "}{'a':1}") = (-1)%Z.
Proof.
  apply (negative_depth_returns_minus_one (str_of_string "}{'a':1}")).
  apply Exists_cons_hd. reflexivity.
Defined.

(** One object whose string value holds a closing brace: the call returns
    the text up to that brace, not the object. *)
Lemma brace_in_string_breaks_framing :
  let st := connected (server ["{'a':'}'}"] Hang) "" in
  fst (receive_json_times (Msg:=message) 10 1 st) <> Return [str_of_string "{'a':'}'}"] /\
  fst (receive_json' 10 st) = Return (str_of_string "{'a':'}").
Proof. split; [vm_compute; discriminate|vm_compute; reflexivity]. Qed.

(** A two-byte character cut by a segment boundary: the first segment does
    not decode on its own. *)
Example split_character_raises :
  let segments := [[x7b; x22; x61; x22; x3a; x22; xc3]; [xa9; x22; x7d]] in
  let st := connected (mkSock 3 true segments Hang 8 [] false) "" in
  Utf8.decode (concat segments) = Some [123; 34; 97; 34; 58; 34; 233; 34; 125]%N /\
  fst (receive_json' 10 st) = Raise UnicodeDecodeError.
Proof. split; vm_compute; reflexivity. Qed.

(** An object that fills the read size exactly: the inner loop asks for
    more, and with a silent server the call does not come back. *)
Example full_read_blocks :
  let object :=
    (bytes_of_string "{'k':'" ++ repeat x61 4088 ++ bytes_of_string "'}")%list in
  let st := connected (mkSock 3 true [object] Hang 8 [] false) "" in
  length object = BUFF_SIZE /\
  option_map Scanner.framedb (Utf8.decode object) = Some true /\
  fst (receive_json' 10 st) = Block.
Proof. repeat split; vm_compute; reflexivity. Qed.

Lemma perform_command_failure_witness :
  let st := connected (server [canceled_reply] Hang) "" in
  perform_command 10 command None st
  = (Raise (TaskCanceledException (Some (str_of_string "stop"))),
     snd (receive_response 10 (snd (send command st)))).
Proof.
  intros st.
  refine (proj1 (perform_command_failure 10 command None st
                   (snd (send command st))
                   (snd (receive_response 10 (snd (send command st))))
                   (mkResponse false None
                      (Some (str_of_string "TaskCanceledException"))
                      (Some (str_of_string "stop")))
                   _ _ _) _); vm_compute; reflexivity.
Defined.

(** The greeting is incompatible: [connect] raises, and the connection is
    left holding the open socket, on which no [close] was called. *)
Lemma connect_failure_leaves_socket_open :
  let run := connect 10 command "/run/dsf/dcs.sock" (world old_server) in
  fst run = Raise (IncompatibleVersionException (VInt 11) (VInt 3)) /\
  option_map sk_closed (socket (self (snd run))) = Some false /\
  closes (log (snd run)) = 0%nat.
Proof. repeat split. Qed.

Lemma connect_failure_keeps_socket_witness :
  exists sk,
    socket (self (snd (connect 10 command "/run/dsf/dcs.sock" (world old_server))))
    = Some sk /\
    sk_fileno sk = 3%nat /\
    sk_closed sk = false.
Proof.
  destruct (connect_failure_keeps_socket 10 command "/run/dsf/dcs.sock"
              (world old_server)
              (snd (connect 10 command "/run/dsf/dcs.sock" (world old_server)))
              (IncompatibleVersionException (VInt 11) (VInt 3)))
    as (sk & Hs & Hf & Hc & _); [reflexivity|vm_compute; reflexivity|].
  exists sk. repeat split; assumption.
Defined.

Lemma connect_incompatible_before_send_witness :
  exists st',
    connect 10 command "/run/dsf/dcs.sock" (world old_server)
    = (Raise (IncompatibleVersionException (VInt 11) (VInt 3)), st') /\
    sends (log st') = 0%nat.
Proof.
  destruct (connect_incompatible_before_send 10 command "/run/dsf/dcs.sock"
              (world old_server)
              (bytes_of_string "{'version':3,'id':8}")
              (set_pending [] old_server)
              (str_of_string "{'version':3,'id':8}")
              (VGreeting 3 8)
              ((3%Z, 8%Z) : @ServerInitMessage message value imports))
    as (st' & Hrun & _ & Hsends & _); try (vm_compute; reflexivity).
  exists st'. split; assumption.
Defined.

Lemma receive_json_spins_at_eof_witness :
  fst (receive_json' 25 (connected (server [] Eof) "{'partial':")) = OutOfFuel.
Proof.
  apply (receive_json_spins_at_eof (Msg:=message) 25
           (connected (server [] Eof) "{'partial':") (server [] Eof));
    try reflexivity.
  vm_compute. discriminate.
Defined.

Lemma receive_json_without_socket_witness :
  let st := mkState (mkConn false None (Some (VInt 7)) (str_of_string "{'a':1}"))
                    1 (fun _ => old_server) [EvClose 3] in
  receive_json' 10 st = (Raise (RuntimeError "socket is closed or missing"), st).
Proof.
  intros st. apply (receive_json_without_socket (Msg:=message) 10 st). reflexivity.
Defined.

Lemma leading_other_never_framed_witness :
  Scanner.get_json_object_end_index (str_of_string "x{'a':1}") = 1%Z /\
  forall s, fst (receive_json' 10 (connected (server ["{'b':2}"] Eof) "x{'a':1}"))
            <> Return s.
Proof.
  destruct (leading_other_never_framed (Msg:=message) (Value:=value)
              120%N (str_of_string "{'a':1}")) as [Hone Hnever].
  - discriminate.
  - discriminate.
  - split; [exact Hone|].
    apply (Hnever 10 (connected (server ["{'b':2}"] Eof) "x{'a':1}") eq_refl).
Defined.

End Runs.

(** * Further properties *)

(** ** The end index against brace counts *)

Section ScannerDepth.

Import Scanner.
Local Open Scope Z_scope.

Lemma brace_depth_one (t : N) :
  (t = LBRACE /\ brace_depth [t] = 1) \/
  (t = RBRACE /\ brace_depth [t] = -1) \/
  (t <> LBRACE /\ t <> RBRACE /\ brace_depth [t] = 0).
Proof.
  unfold brace_depth. cbn [count_occ].
  destruct (N.eq_dec t LBRACE) as [->|H1]; [left; split; reflexivity|].
  destruct (N.eq_dec t RBRACE) as [->|H2]; [right; left; split; reflexivity|].
  right; right. repeat split; assumption.
Qed.

Lemma brace_depth_app (a b : str) : brace_depth (a ++ b) = brace_depth a + brace_depth b.
Proof. unfold brace_depth. rewrite !count_occ_app. lia. Qed.

Lemma brace_depth_cons (t : N) (l : str) : brace_depth (t :: l) = brace_depth [t] + brace_depth l.
Proof. apply (brace_depth_app [t] l). Qed.

Lemma bump_depth (count : Z) (t : N) : bump count t = count + brace_depth [t].
Proof.
  unfold bump.
  destruct (brace_depth_one t) as [[-> E]|[[-> E]|(H1 & H2 & E)]]; rewrite E.
  - reflexivity.
  - reflexivity.
  - apply N.eqb_neq in H1, H2. rewrite H1, H2. lia.
Qed.

Lemma scan_sound (s : str) : forall (count index : Z),
  0 <= index -> index < scan count index s ->
  exists k : nat,
    scan count index s = index + Z.of_nat k /\
    (1 <= k <= length s)%nat /\
    count + brace_depth (firstn k s) = 0 /\
    forall j : nat, (1 <= j < k)%nat -> 0 < count + brace_depth (firstn j s).
Proof.
  induction s as [|t s IH]; intros count index Hi; cbn [scan]; [lia|].
  cbv zeta. rewrite bump_depth.
  destruct (count + brace_depth [t] <? 0) eqn:E1; [lia|].
  apply Z.ltb_ge in E1.
  destruct (count + brace_depth [t] =? 0) eqn:E2.
  - apply Z.eqb_eq in E2. intros _. exists 1%nat. cbn [firstn length].
    split; [lia|]. split; [lia|]. split; [lia|]. intros j Hj. lia.
  - apply Z.eqb_neq in E2. intros Hf.
    destruct (scan_range s (count + brace_depth [t]) (index + 1)) as [R|R]; [lia|lia|].
    destruct (IH (count + brace_depth [t]) (index + 1)) as (k & Hk & Hlen & Hz & Hpos);
      [lia|lia|].
    exists (S k). cbn [firstn length]. rewrite (brace_depth_cons t (firstn k s)).
    split; [lia|]. split; [lia|]. split; [lia|].
    intros j Hj. destruct j as [|[|j]]; [lia|cbn; lia|].
    change (firstn (S (S j)) (t :: s)) with (t :: firstn (S j) s).
    rewrite (brace_depth_cons t (firstn (S j) s)).
    specialize (Hpos (S j) ltac:(lia)). lia.
Qed.

Lemma scan_complete (s : str) : forall (count index : Z) (k : nat),
  (1 <= k <= length s)%nat ->
  (forall j : nat, (1 <= j < k)%nat -> 0 < count + brace_depth (firstn j s)) ->
  count + brace_depth (firstn k s) = 0 ->
  scan count index s = index + Z.of_nat k.
Proof.
  induction s as [|t s IH]; intros count index k Hk Hpos Hz; [simpl in Hk; lia|].
  cbn [scan]. cbv zeta. rewrite bump_depth.
  destruct k as [|[|k]]; [lia| |].
  - cbn [firstn] in Hz. rewrite Hz. cbn. lia.
  - pose proof (Hpos 1%nat ltac:(lia)) as H1. cbn [firstn] in H1.
    destruct (count + brace_depth [t] <? 0) eqn:E1; [apply Z.ltb_lt in E1; lia|].
    destruct (count + brace_depth [t] =? 0) eqn:E2; [apply Z.eqb_eq in E2; lia|].
    rewrite (IH _ _ (S k)).
    + lia.
    + simpl in Hk. lia.
    + intros j Hj. specialize (Hpos (S j) ltac:(lia)).
      change (firstn (S j) (t :: s)) with (t :: firstn j s) in Hpos.
      rewrite (brace_depth_cons t (firstn j s)) in Hpos. lia.
    + change (firstn (S (S k)) (t :: s)) with (t :: firstn (S k) s) in Hz.
      rewrite (brace_depth_cons t (firstn (S k) s)) in Hz. lia.
Qed.

Lemma scan_incomplete (s : str) : forall (count index : Z),
  (forall j : nat, (1 <= j <= length s)%nat -> 0 < count + brace_depth (firstn j s)) ->
  scan count index s = -1.
Proof.
  induction s as [|t s IH]; intros count index Hpos; [reflexivity|].
  cbn [scan]. cbv zeta. rewrite bump_depth.
  pose proof (Hpos 1%nat ltac:(simpl; lia)) as H1. cbn [firstn] in H1.
  destruct (count + brace_depth [t] <? 0) eqn:E1; [reflexivity|].
  destruct (count + brace_depth [t] =? 0) eqn:E2; [apply Z.eqb_eq in E2; lia|].
  apply IH. intros j Hj. specialize (Hpos (S j) ltac:(simpl; lia)).
  change (firstn (S j) (t :: s)) with (t :: firstn j s) in Hpos.
  rewrite (brace_depth_cons t (firstn j s)) in Hpos. lia.
Qed.

Lemma firstn_snoc (s : str) : forall (n : nat) (x : N),
  nth_error s n = Some x -> firstn (S n) s = firstn n s ++ [x].
Proof.
  induction s as [|t s IH]; intros [|n] x H; try discriminate.
  - injection H as ->. reflexivity.
  - cbn [firstn app]. f_equal. now apply IH.
Qed.

(** X1. The end index is -1 or a position inside the text, from 1 up to
    its length. *)
Theorem end_index_range (s : str) :
  get_json_object_end_index s = -1 \/
  1 <= get_json_object_end_index s <= len s.
Proof.
  unfold get_json_object_end_index.
  destruct (scan_range s 0 0) as [R|R]; [lia|now left|right; lia].
Qed.

(** X2. An end index that was found does not move when more text arrives
    behind it. *)
Theorem end_index_stable (s more : str) :
  get_json_object_end_index s <> -1 ->
  get_json_object_end_index (s ++ more) = get_json_object_end_index s.
Proof.
  unfold get_json_object_end_index. intros H.
  destruct (scan_range s 0 0) as [R|R]; [lia|contradiction|].
  apply scan_found_app; lia.
Qed.

Lemma end_index_cut (s : str) :
  1 < get_json_object_end_index s ->
  exists k : nat,
    get_json_object_end_index s = Z.of_nat k /\
    (k <= length s)%nat /\
    brace_depth (firstn k s) = 0 /\
    (forall j : nat, (1 <= j < k)%nat -> 0 < brace_depth (firstn j s)) /\
    nth_error s 0 = Some LBRACE /\
    nth_error s (k - 1) = Some RBRACE.
Proof.
  unfold get_json_object_end_index. intros H.
  destruct (scan_sound s 0 0) as (k & Hk & Hlen & Hz & Hpos); [lia|lia|].
  rewrite Hk in H. exists k. rewrite Hk.
  split; [lia|]. split; [lia|]. split; [lia|]. split; [|split].
  - intros j Hj. specialize (Hpos j Hj). lia.
  - specialize (Hpos 1%nat ltac:(lia)). destruct s as [|t s]; [simpl in Hlen; lia|].
    cbn [firstn] in Hpos.
    destruct (brace_depth_one t) as [[-> E]|[[-> E]|(H1 & H2 & E)]]; rewrite E in Hpos;
      [reflexivity|lia|lia].
  - destruct (nth_error s (k - 1)) as [x|] eqn:En.
    + pose proof (firstn_snoc s (k - 1) x En) as F.
      replace (S (k - 1)) with k in F by lia.
      rewrite F, brace_depth_app in Hz.
      specialize (Hpos (k - 1)%nat ltac:(lia)).
      destruct (brace_depth_one x) as [[-> E]|[[-> E]|(H1 & H2 & E)]]; rewrite E in Hz;
        [lia|reflexivity|lia].
    + apply nth_error_None in En. lia.
Qed.

(** A framed text is brace-balanced from its first to its last character. *)
Lemma framed_balanced (t : str) :
  framed t ->
  (2 <= length t)%nat /\
  nth_error t 0 = Some LBRACE /\
  nth_error t (length t - 1) = Some RBRACE /\
  brace_depth t = 0 /\
  (forall j : nat, (1 <= j < length t)%nat -> 0 < brace_depth (firstn j t)).
Proof.
  intros [Ht Hlen]. rewrite <- Ht in Hlen.
  destruct (end_index_cut t Hlen) as (k & Hk & _ & Hz & Hpos & Hhd & Hlast).
  rewrite Ht in Hk. unfold len in Hk. apply Nat2Z.inj in Hk. subst k.
  rewrite firstn_all in Hz. unfold len in Ht, Hlen. repeat split; try assumption.
  lia.
Qed.

(** X3. An end index above 1 cuts off a brace-balanced text: it begins
    with an opening brace, ends with a closing brace, holds as many of the
    one as of the other, and every shorter non-empty prefix holds more
    opening than closing braces. *)
Theorem end_index_cuts_balanced (s : str) :
  1 < get_json_object_end_index s ->
  exists k : nat,
    get_json_object_end_index s = Z.of_nat k /\
    (k <= length s)%nat /\
    brace_depth (firstn k s) = 0 /\
    (forall j : nat, (1 <= j < k)%nat -> 0 < brace_depth (firstn j s)) /\
    nth_error s 0 = Some LBRACE /\
    nth_error s (k - 1) = Some RBRACE.
Proof. apply end_index_cut. Qed.

(** X4. The end index is the first balance point: if the braces of the
    first [k] characters balance and those of no shorter non-empty prefix
    do, each holding more opening than closing braces, the end index is
    [k]. *)
Theorem end_index_is_first_balance (s : str) (k : nat) :
  (1 <= k <= length s)%nat ->
  (forall j : nat, (1 <= j < k)%nat -> 0 < brace_depth (firstn j s)) ->
  brace_depth (firstn k s) = 0 ->
  get_json_object_end_index s = Z.of_nat k.
Proof.
  intros Hk Hpos Hz. unfold get_json_object_end_index.
  rewrite (scan_complete s 0 0 k Hk); [lia| |lia].
  intros j Hj. specialize (Hpos j Hj). lia.
Qed.

(** X5. A text still open at its end, every non-empty prefix holding more
    opening than closing braces, has no end index: the result is -1
    however long the text is. *)
Theorem end_index_of_open_text (s : str) :
  (forall j : nat, (1 <= j <= length s)%nat -> 0 < brace_depth (firstn j s)) ->
  get_json_object_end_index s = -1.
Proof.
  intros Hpos. apply scan_incomplete. intros j Hj. specialize (Hpos j Hj). lia.
Qed.

End ScannerDepth.

(** ** What receive_json does to the connection *)

Section ReceiveFacts.

Context {Msg Value : Type} {imports : Imports Msg Value}.

Local Abbreviation State := (State Value).
Local Abbreviation M := (M (Msg:=Msg) (Value:=Value)).
Local Abbreviation respects := (@respects Msg Value _).

Lemma reads_refl (st : State) : reads st st.
Proof.
  unfold reads. repeat split.
  destruct (socket (self st)); [|reflexivity].
  split; [reflexivity|]. exists 0%nat. cbn. now rewrite app_nil_r.
Qed.

Lemma reads_trans (a b c : State) : reads a b -> reads b c -> reads a c.
Proof.
  unfold reads. intros (D1 & I1 & C1 & N1 & S1) (D2 & I2 & C2 & N2 & S2).
  repeat split; try congruence.
  destruct (socket (self a)) as [sa|], (socket (self b)) as [sb|],
    (socket (self c)) as [sc|]; try contradiction; [|congruence].
  destruct S1 as [E1 [n L1]], S2 as [E2 [m L2]].
  split; [congruence|]. exists (n + m)%nat.
  assert (sk_fileno sb = sk_fileno sa) as F by (unfold endpoint in E1; congruence).
  rewrite L2, L1, F, <- app_assoc. unfold recvs. now rewrite repeat_app.
Qed.

Lemma reads_input (s : str) (st : State) : reads st (set_input s st).
Proof.
  unfold reads. cbn. repeat split.
  destruct (socket (self st)); [|reflexivity].
  split; [reflexivity|]. exists 0%nat. cbn. now rewrite app_nil_r.
Qed.

Lemma sock_recv_endpoint (n : nat) (sk : Sock) :
  endpoint (snd (sock_recv (Msg:=Msg) (Value:=Value) n sk)) = endpoint sk.
Proof.
  unfold sock_recv. destruct (sk_closed sk); [reflexivity|].
  destruct (sk_pending sk); [now destruct (sk_tail sk)|].
  now destruct (skipn n b).
Qed.

Lemma reads_recv :
  respects reads (on_socket (fun fd => EvRecv fd BUFF_SIZE) (sock_recv BUFF_SIZE)).
Proof.
  intros st. unfold on_socket.
  destruct (socket (self st)) as [sk|] eqn:Hs; [|apply reads_refl].
  pose proof (sock_recv_endpoint BUFF_SIZE sk) as E.
  destruct (sock_recv BUFF_SIZE sk) as [o sk']. cbn [snd] in *.
  unfold reads. cbn. rewrite Hs. repeat split; try assumption.
  exists 1%nat. reflexivity.
Qed.

Lemma reads_recv_parts (fuel : nat) : forall data, respects reads (recv_parts fuel data).
Proof.
  induction fuel as [|fuel IH]; intros data; cbn [recv_parts].
  - intros st. apply reads_refl.
  - apply (respects_bind reads reads_trans); [apply reads_recv|].
    intros part. destruct (length part <? BUFF_SIZE)%nat;
      [apply (respects_ret reads reads_refl)|apply IH].
Qed.

Lemma reads_refill (fuel : nat) : forall json_string, respects reads (refill fuel json_string).
Proof.
  induction fuel as [|fuel IH]; intros js; cbn [refill].
  - intros st. apply reads_refl.
  - apply (respects_bind reads reads_trans); [apply reads_recv_parts|].
    intros data.
    apply (respects_bind reads reads_trans);
      [apply (respects_or_raise reads reads_refl)|].
    intros text. destruct (1 <? _)%Z; [|apply IH].
    intros st. apply reads_input.
Qed.

Lemma receive_json_reads (fuel : nat) (st : State) :
  reads st (snd (receive_json (Msg:=Msg) fuel st)).
Proof.
  unfold receive_json. destruct (socket (self st)) eqn:Hs; [|apply reads_refl].
  destruct (1 <? _)%Z; [apply reads_input|apply reads_refill].
Qed.

(** X6. [receive_json] only reads: whatever its outcome, all it has done is
    call [recv(4096)] on the connection's socket some number of times and
    possibly assign [self.input].  It writes nothing, closes nothing,
    creates no socket and leaves [self.id] alone; with no socket it makes
    no call at all. *)
Theorem receive_json_only_reads (fuel : nat) (st : State) :
  reads st (snd (receive_json (Msg:=Msg) fuel st)).
Proof. apply receive_json_reads. Qed.

Lemma refill_failure_keeps_input (fuel : nat) :
  forall (json_string : str) (st : State),
    (forall s, fst (refill (Msg:=Msg) fuel json_string st) <> Return s) ->
    input (self (snd (refill (Msg:=Msg) fuel json_string st))) = input (self st).
Proof.
  induction fuel as [|fuel IH]; intros js st; [reflexivity|].
  cbn [refill]. unfold bind.
  pose proof (recv_parts_keeps_input (Msg:=Msg) fuel [] st) as K. unfold keeps_input in K.
  revert K. destruct (recv_parts fuel [] st) as [[data|e| |] st1]; cbn [fst snd];
    intros K Hne; try assumption.
  revert Hne. destruct (Utf8.decode data) as [text|]; cbn [or_raise ret raise fst snd];
    [|intros _; assumption].
  destruct (1 <? _)%Z.
  - intros Hne. exfalso. eapply Hne. reflexivity.
  - intros Hne. rewrite IH; assumption.
Qed.

(** X7. With [self.debug] off, [self.input] changes only when a frame is
    returned.  A call that raises, blocks or is cut off leaves the buffer
    as it was; the text it had read from the socket by then was held in a
    local variable and is gone. *)
Theorem receive_json_failure_keeps_input (fuel : nat) (st : State) :
  debug (self st) = false ->
  (forall s, fst (receive_json (Msg:=Msg) fuel st) <> Return s) ->
  input (self (snd (receive_json (Msg:=Msg) fuel st))) = input (self st).
Proof.
  intros _. unfold receive_json. destruct (socket (self st)); [|reflexivity].
  destruct (1 <? _)%Z.
  - intros Hne. exfalso. eapply Hne. reflexivity.
  - apply refill_failure_keeps_input.
Qed.

Lemma set_input_twice (a b : str) (st : State) :
  set_input a (set_input b st) = set_input a st.
Proof. reflexivity. Qed.

(** X8. Frames already in the read-ahead buffer are served from it: when
    the buffer begins with texts the scan frames exactly, that many calls
    return them in order, make no socket call and leave the rest of the
    buffer in place.  This needs no fuel and holds whatever state the
    socket is in. *)
Theorem receive_json_serves_buffer (fuel : nat) (texts : list str) :
  forall (rest : str) (st : State),
    socket (self st) <> None ->
    forallb Scanner.framedb texts = true ->
    input (self st) = concat texts ++ rest ->
    receive_json_times (Msg:=Msg) fuel (length texts) st
    = (Return texts, set_input rest st).
Proof.
  induction texts as [|t texts IH]; intros rest st Hs Hfr Hin.
  - cbn. unfold ret. f_equal. cbn in Hin. rewrite <- Hin.
    now destruct st as [[d sk i inp] c nt l].
  - cbn in Hfr. apply andb_true_iff in Hfr as [Ht Hfr].
    apply framedb_spec in Ht. cbn [concat] in Hin. rewrite <- app_assoc in Hin.
    cbn [length receive_json_times]. unfold bind at 1. unfold receive_json.
    destruct (socket (self st)) as [sk|] eqn:Esk; [|contradiction].
    rewrite Hin, (framed_app t _ Ht).
    pose proof Ht as [_ Hlen]. apply Z.ltb_lt in Hlen. rewrite Hlen.
    unfold split_at. rewrite slice_to_app_len, slice_from_app_len.
    unfold bind. rewrite (IH rest).
    + reflexivity.
    + cbn. rewrite Esk. discriminate.
    + assumption.
    + reflexivity.
Qed.

Lemma receive_json_framed (fuel : nat) (st st' : State) (s : str) :
  receive_json (Msg:=Msg) fuel st = (Return s, st') -> Scanner.framed s.
Proof.
  unfold receive_json. destruct (socket (self st)); [|discriminate].
  destruct (1 <? Scanner.get_json_object_end_index (input (self st)))%Z eqn:Ei.
  - unfold split_at. intros [= <- _]. apply slice_to_framed. now apply Z.ltb_lt.
  - intros Hrun. apply refill_consumes in Hrun as (data & text & _ & _ & Hi & -> & _).
    now apply slice_to_framed.
Qed.

End ReceiveFacts.

(** ** Writing, closing and the command exchange *)

Section CommandFacts.

Context {Msg Value : Type} {imports : Imports Msg Value}.

Local Abbreviation State := (State Value).
Local Abbreviation M := (M (Msg:=Msg) (Value:=Value)).

(** X9. What [receive_json] returns is at least two characters long,
    begins with an opening brace, ends with a closing brace and holds as
    many opening as closing braces. *)
Theorem receive_json_returns_balanced (fuel : nat) (st st' : State) (s : str) :
  receive_json (Msg:=Msg) fuel st = (Return s, st') ->
  (2 <= length s)%nat /\
  nth_error s 0 = Some LBRACE /\
  nth_error s (length s - 1) = Some RBRACE /\
  brace_depth s = 0%Z.
Proof.
  intros Hrun. apply receive_json_framed in Hrun.
  destruct (framed_balanced s Hrun) as (H2 & Hh & Hl & Hz & _). now repeat split.
Qed.

Lemma sock_sendall_outcomes (data : bytes) (sk : Sock) :
  (sk_closed sk = false /\ (0 < sk_sendable sk)%nat /\
   sock_sendall (Msg:=Msg) (Value:=Value) data sk = (Return tt, sent_on data sk)) \/
  (exists e, sock_sendall (Msg:=Msg) (Value:=Value) data sk = (Raise e, sk)).
Proof.
  unfold sock_sendall, sent_on. destruct (sk_closed sk) eqn:Ec; [right; eauto|].
  destruct (sk_sendable sk) as [|n] eqn:En; [right; eauto|].
  left. split; [reflexivity|]. split; [lia|]. reflexivity.
Qed.

(** Every way [send] can go. *)
Lemma send_outcomes (msg : Msg) (st : State) :
  (exists e, send msg st = (Raise e, st)) \/
  exists sk js data,
    socket (self st) = Some sk /\ json_dumps msg = Some js /\
    Utf8.encode js = Some data /\
    ((sk_closed sk = false /\ (0 < sk_sendable sk)%nat /\
      send msg st
      = (Return tt, emit (EvSendAll (sk_fileno sk) data)
                      (set_socket (Some (sent_on data sk)) st))) \/
     (exists e,
        send msg st
        = (Raise e, emit (EvSendAll (sk_fileno sk) data)
                      (set_socket (Some sk) st)))).
Proof.
  unfold send, bind.
  destruct (json_dumps msg) as [js|] eqn:Ej; cbn [or_raise ret raise]; [|left; eauto].
  destruct (socket (self st)) as [sk|] eqn:Es; [|left; eauto].
  destruct (Utf8.encode js) as [data|] eqn:Ee; cbn [or_raise ret raise]; [|left; eauto].
  right. exists sk, js, data. repeat split; try assumption.
  rewrite (on_socket_some _ _ _ _ Es).
  destruct (sock_sendall_outcomes data sk) as [(Hc & Hn & E)|[e E]]; rewrite E; cbn [fst snd].
  - left. now repeat split.
  - right. now exists e.
Qed.

(** X10. A [send] that returns has made exactly one socket call, a
    [sendall] of the UTF-8 encoding of [json.dumps(msg)] and of nothing
    else (no newline follows the text), on an open socket; the call is
    the only change to the connection. *)
Theorem send_writes_once (msg : Msg) (st st' : State) :
  send msg st = (Return tt, st') ->
  exists sk js data,
    socket (self st) = Some sk /\ sk_closed sk = false /\
    json_dumps msg = Some js /\ Utf8.encode js = Some data /\
    st' = emit (EvSendAll (sk_fileno sk) data) (set_socket (Some (sent_on data sk)) st).
Proof.
  intros Hrun.
  destruct (send_outcomes msg st) as [[e E]|(sk & js & data & Hs & Hj & He & [(Hc & _ & E)|[e E]])];
    rewrite E in Hrun; try discriminate.
  injection Hrun as <-. exists sk, js, data. now repeat split.
Qed.

(** X11. [send] never reads: whatever its outcome, the read-ahead buffer,
    [self.id] and the data pending on the socket are as before, and the
    log has grown by one [sendall] or by nothing. *)
Theorem send_never_reads (msg : Msg) (st : State) :
  let st' := snd (send msg st) in
  input (self st') = input (self st) /\
  id (self st') = id (self st) /\
  option_map sk_pending (socket (self st')) = option_map sk_pending (socket (self st)) /\
  (log st' = log st \/ exists fd data, log st' = log st ++ [EvSendAll fd data]).
Proof.
  destruct (send_outcomes msg st) as [[e E]|(sk & js & data & Hs & Hj & He & [(Hc & _ & E)|[e E]])];
    rewrite E; cbn; rewrite ?Hs; repeat split; eauto.
Qed.

Lemma close_state (st : State) :
  snd (close (Msg:=Msg) st)
  = match socket (self st) with
    | Some sk =>
        mkState (mkConn (debug (self st)) None (id (self st)) (input (self st)))
                (created st) (net st) (log st ++ [EvClose (sk_fileno sk)])
    | None => st
    end.
Proof.
  unfold close, bind, on_socket. now destruct (socket (self st)).
Qed.

(** X12. After [close] the buffer and the id are still there, and the
    connection refuses further use without touching anything:
    [receive_json] raises [RuntimeError] and [send] raises, each leaving
    the state exactly as [close] left it. *)
Theorem closed_connection_refuses (fuel : nat) (msg : Msg) (st : State) :
  let st1 := snd (close (Msg:=Msg) st) in
  input (self st1) = input (self st) /\
  id (self st1) = id (self st) /\
  receive_json (Msg:=Msg) fuel st1
  = (Raise (RuntimeError "socket is closed or missing"), st1) /\
  exists e, send msg st1 = (Raise e, st1).
Proof.
  assert (socket (self (snd (close (Msg:=Msg) st))) = None) as Hnone.
  { rewrite close_state. destruct (socket (self st)) eqn:E; [reflexivity|exact E]. }
  cbv zeta. split; [|split; [|split]].
  - rewrite close_state. now destruct (socket (self st)).
  - rewrite close_state. now destruct (socket (self st)).
  - unfold receive_json. now rewrite Hnone.
  - destruct (send_outcomes msg (snd (close (Msg:=Msg) st)))
      as [[e E]|(sk & _ & _ & Hs & _)]; [eauto|congruence].
Qed.

(** X13. When the envelope received for a command has [success = true],
    [perform_command] returns it: unchanged when no class is given or the
    result is [None], and otherwise with the result replaced by what the
    class's [from_json] makes of it; an exception of [from_json] is
    raised to the caller. *)
Theorem perform_command_success (fuel : nat) (command : Msg)
    (st st1 st2 : State) (response : Response Value) :
  send command st = (Return tt, st1) ->
  receive_response fuel st1 = (Return response, st2) ->
  success response = true ->
  perform_command fuel command None st = (Return response, st2) /\
  (forall from_json,
     result response = None ->
     perform_command fuel command (Some from_json) st = (Return response, st2)) /\
  (forall from_json r,
     result response = Some r ->
     perform_command fuel command (Some from_json) st
     = (match from_json r with
        | inr r' => Return (mkResponse true (Some r') (error_type response)
                              (error_message response))
        | inl e => Raise e
        end, st2)).
Proof.
  intros Hs Hr Hok. unfold perform_command, bind. rewrite Hs, Hr, Hok.
  repeat split.
  - intros from_json Hn. now rewrite Hn.
  - intros from_json r Hres. rewrite Hres. unfold or_reraise.
    now destruct (from_json r).
Qed.



End CommandFacts.

(** ** The handshake from end to end *)

Section HandshakeFacts.

Context {Msg Value : Type} {imports : Imports Msg Value}.

Local Abbreviation State := (State Value).
Local Abbreviation M := (M (Msg:=Msg) (Value:=Value)).

Lemma bind_Return {A B} (c : M A) (k : A -> M B) (st st' : State) (b : B) :
  bind c k st = (Return b, st') ->
  exists a st1, c st = (Return a, st1) /\ k a st1 = (Return b, st').
Proof.
  unfold bind. destruct (c st) as [[a|e| |] st1]; try discriminate.
  intros H. now exists a, st1.
Qed.




Lemma sends_app (l1 l2 : list Event) : sends (l1 ++ l2) = (sends l1 + sends l2)%nat.
Proof. unfold sends. now rewrite filter_app, length_app. Qed.

Lemma sends_recvs (fd n : nat) : sends (recvs fd n) = 0%nat.
Proof. unfold sends, recvs. induction n; [reflexivity|exact IHn]. Qed.

Lemma reads_sends (st st' : State) : reads st st' -> sends (log st') = sends (log st).
Proof.
  intros (_ & _ & _ & _ & R).
  destruct (socket (self st)), (socket (self st')); try contradiction.
  - destruct R as [_ [n ->]]. rewrite sends_app, sends_recvs. lia.
  - now rewrite R.
Qed.



(** X17. [connect] does not reset the read-ahead buffer.  If the buffer
    begins with a framed text when [connect] is called, the handshake
    takes that text for the server's answer to the init message: the
    outcome is decided by it, the answer the server sends is not read, and
    the rest of the buffer stays. *)
Theorem connect_answers_from_buffer (fuel : nat) (init_message : Msg)
    (socket_path : string) (st : State) (t rest : str)
    (greeting : bytes) (sk1 : Sock) (text : str) (v : Value)
    (sim : ServerInitMessage) (js : str) (data : bytes) (response : Response Value) :
  let sk := net st (created st) in
  let fd := sk_fileno sk in
  input (self st) = t ++ rest ->
  Scanner.framed t ->
  sk_closed sk = false ->
  sk_connects sk = true ->
  (0 < sk_sendable sk)%nat ->
  sock_recv (Msg:=Msg) (Value:=Value) 50 sk = (Return greeting, sk1) ->
  Utf8.decode greeting = Some text ->
  json_loads text = Some v ->
  ServerInitMessage_from_json v = inr sim ->
  is_compatible sim = true ->
  json_dumps init_message = Some js ->
  Utf8.encode js = Some data ->
  loads_response t = inr response ->
  exists st',
    connect fuel init_message socket_path st
    = (if success response then Return tt
       else Raise (ConnectionTypeRefused (mode init_message)
                     (error_type response) (error_message response)), st') /\
    input (self st') = rest /\
    log st' = log st ++ [EvSocket fd; EvConnect fd socket_path; EvSetBlocking fd;
                         EvRecv fd 50; EvSendAll fd data].
Proof.
  intros sk fd Hin Ht Hopen Hconn Hsend Hrecv Hdec Hloads Hfrom Hcompat Hj He Hresp.
  pose proof (sock_recv_endpoint (Msg:=Msg) (Value:=Value) 50 sk) as Eend.
  rewrite Hrecv in Eend. cbn [snd] in Eend. unfold endpoint in Eend.
  assert (sk_closed sk1 = false) as Hopen1 by congruence.
  assert (sk_fileno sk1 = sk_fileno sk) as Hfd by congruence.
  assert (exists m, sk_sendable sk1 = S m) as [m Hm].
  { exists (pred (sk_sendable sk)). injection Eend as _ _ _ E _ _. lia. }
  unfold connect, bind, new_socket, on_socket. cbn [self socket].
  fold sk. unfold sock_connect. rewrite Hopen, Hconn.
  cbn [self socket set_socket emit sock_setblocking].
  rewrite Hrecv. unfold or_raise, or_reraise. rewrite Hdec. unfold ret.
  rewrite Hloads, Hfrom, Hcompat. cbn [negb].
  unfold send, bind, or_raise. rewrite Hj. unfold ret.
  cbn [self socket set_id set_socket emit]. rewrite He.
  unfold on_socket. cbn [self socket set_id set_socket emit].
  unfold sock_sendall. rewrite Hopen1, Hm.
  unfold receive_response, bind, receive_json.
  cbn [self socket input set_id set_socket emit].
  rewrite Hin, (framed_app t rest Ht).
  pose proof Ht as [_ Hlen]. apply Z.ltb_lt in Hlen. rewrite Hlen.
  unfold split_at. rewrite slice_to_app_len, slice_from_app_len.
  unfold or_reraise. rewrite Hresp. unfold ret, raise.
  destruct (success response); cbn [negb]; eexists;
    (split; [reflexivity|]); cbn [self input log set_input];
    (split; [reflexivity|]); cbn [log emit set_socket set_id];
    rewrite Hfd; unfold fd; rewrite <- !app_assoc; reflexivity.
Qed.

End HandshakeFacts.

(** ** Object-model queries and subscriptions *)

Section ChannelFacts.

Context {Msg Value : Type} {imports : Imports Msg Value}.

Local Abbreviation State := (State Value).
Local Abbreviation M := (M (Msg:=Msg) (Value:=Value)).

Lemma receive_state (fuel : nat) (cls_from_json : Value -> Exn Msg Value + Value)
    (st : State) :
  snd (receive fuel cls_from_json st) = snd (receive_json (Msg:=Msg) fuel st).
Proof.
  unfold receive, bind.
  destruct (receive_json fuel st) as [[s|e| |] st1]; try reflexivity.
  destruct (json_loads s) as [v|]; cbn [or_raise ret raise]; [|reflexivity].
  unfold or_reraise. now destruct (cls_from_json v).
Qed.

(** X18. Decoding a frame does not touch the connection.  After [receive]
    or [receive_response] the connection is as [receive_json] alone would
    have left it, so a frame that fails to decode has been consumed all
    the same: a [json.loads] failure in [receive] raises with the frame
    already taken out of the buffer. *)
Theorem decoding_consumes_frame (fuel : nat)
    (cls_from_json : Value -> Exn Msg Value + Value) (st : State) :
  snd (receive fuel cls_from_json st) = snd (receive_json (Msg:=Msg) fuel st) /\
  snd (receive_response fuel st) = snd (receive_json (Msg:=Msg) fuel st) /\
  forall s st',
    receive_json (Msg:=Msg) fuel st = (Return s, st') ->
    json_loads s = None ->
    receive fuel cls_from_json st = (Raise JSONDecodeError, st').
Proof.
  split; [apply receive_state|]. unfold receive, receive_response, bind. split.
  - destruct (receive_json fuel st) as [[s|e| |] st1]; try reflexivity.
    unfold or_reraise. now destruct (loads_response s).
  - intros s st' -> Hnone. now rewrite Hnone.
Qed.

(** X19. The decoded and the serialized object-model query are one
    exchange read two ways.  Both leave the connection in the same state,
    and when the serialized query returns the text [s], the decoded query
    has the outcome that the envelope decoded from [s] prescribes: the
    model built from its result, or the exception for its error type.  The
    serialized query itself never looks inside the envelope, so a failure
    reported by the server comes back as text. *)
Theorem object_model_queries_agree (fuel : nat) (command : Msg)
    (MachineModel_from_json : Value -> Exn Msg Value + Value) (st : State) :
  snd (BaseCommandConnection.get_object_model command MachineModel_from_json fuel st)
  = snd (BaseCommandConnection.get_serialized_object_model command fuel st) /\
  forall s st',
    BaseCommandConnection.get_serialized_object_model command fuel st = (Return s, st') ->
    BaseCommandConnection.get_object_model command MachineModel_from_json fuel st
    = (match loads_response s with
       | inl e => Raise e
       | inr r =>
           if success r then
             match result r with
             | Some v =>
                 match MachineModel_from_json v with
                 | inr model => Return (Some model)
                 | inl e => Raise e
                 end
             | None => Return None
             end
           else if is_task_canceled (error_type r)
                then Raise (TaskCanceledException (error_message r))
                else Raise (InternalServerException command (error_type r)
                              (error_message r))
       end, st').
Proof.
  unfold BaseCommandConnection.get_object_model,
    BaseCommandConnection.get_serialized_object_model,
    perform_command, receive_response, bind.
  split.
  - destruct (send command st) as [[[]|e| |] st1]; try reflexivity.
    destruct (receive_json fuel st1) as [[s|e| |] st2]; try reflexivity.
    unfold or_reraise.
    destruct (loads_response s) as [e|r]; cbn [raise ret snd]; [reflexivity|].
    destruct (success r).
    + destruct (result r) as [v|]; [|reflexivity].
      now destruct (MachineModel_from_json v).
    + now destruct (is_task_canceled (error_type r)).
  - intros s st'.
    destruct (send command st) as [[[]|e| |] st1]; try discriminate.
    intros ->. unfold or_reraise, ret, raise.
    destruct (loads_response s) as [e|r]; [reflexivity|]. cbv beta iota.
    destruct (success r) eqn:Es; cbv beta iota; rewrite ?Es.
    + destruct (result r) as [v|] eqn:Er; cbv beta iota; rewrite ?Er;
        [|reflexivity].
      now destruct (MachineModel_from_json v).
    + now destruct (is_task_canceled (error_type r)).
Qed.

(** X20. A subscription read that returns has acknowledged what it
    returns: [get_machine_model_patch] and [get_serialized_machine_model]
    return the text [receive_json] returned, and the last thing they did
    is one [sendall] of the encoded acknowledgement, after every read. *)
Theorem subscription_read_acknowledged (fuel : nat) (acknowledge : Msg)
    (st st' : State) (s : str) :
  SubscribeConnection.get_machine_model_patch acknowledge fuel st = (Return s, st') ->
  SubscribeConnection.get_serialized_machine_model acknowledge fuel st = (Return s, st') /\
  exists st1 sk js data,
    receive_json (Msg:=Msg) fuel st = (Return s, st1) /\
    socket (self st1) = Some sk /\
    json_dumps acknowledge = Some js /\ Utf8.encode js = Some data /\
    st' = emit (EvSendAll (sk_fileno sk) data) (set_socket (Some (sent_on data sk)) st1).
Proof.
  intros Hrun. split; [exact Hrun|].
  unfold SubscribeConnection.get_machine_model_patch in Hrun.
  apply bind_Return in Hrun as (s1 & st1 & H1 & Hrun).
  apply bind_Return in Hrun as ([] & st2 & H2 & Hrun).
  injection Hrun as <- <-.
  destruct (send_outcomes acknowledge st1)
    as [[e E]|(sk & js & data & Hs & Hj & He & [(Hc & _ & E)|[e E]])];
    rewrite E in H2; try discriminate.
  injection H2 as <-. exists st1, sk, js, data. now repeat split.
Qed.

(** X21. No acknowledgement without a payload.  When the read of a
    subscription method does not return (it raised, blocked, or, for
    [get_machine_model], the frame did not decode into a model), the
    method stops there: the connection is as [receive_json] left it and
    no [sendall] has been made. *)
Theorem no_acknowledgement_without_payload (fuel : nat) (acknowledge : Msg)
    (MachineModel_from_json : Value -> Exn Msg Value + Value) (st : State) :
  ((forall s, fst (receive_json (Msg:=Msg) fuel st) <> Return s) ->
   snd (SubscribeConnection.get_machine_model_patch acknowledge fuel st)
   = snd (receive_json (Msg:=Msg) fuel st) /\
   snd (SubscribeConnection.get_serialized_machine_model acknowledge fuel st)
   = snd (receive_json (Msg:=Msg) fuel st)) /\
  ((forall m, fst (receive fuel MachineModel_from_json st) <> Return m) ->
   snd (SubscribeConnection.get_machine_model acknowledge MachineModel_from_json fuel st)
   = snd (receive_json (Msg:=Msg) fuel st)) /\
  sends (log (snd (receive_json (Msg:=Msg) fuel st))) = sends (log st).
Proof.
  split; [|split].
  - intros Hne.
    unfold SubscribeConnection.get_machine_model_patch,
      SubscribeConnection.get_serialized_machine_model, bind.
    destruct (receive_json fuel st) as [[s|e| |] st1]; cbn [fst snd] in *;
      try (split; reflexivity).
    exfalso. now apply (Hne s).
  - intros Hne.
    rewrite <- (receive_state fuel MachineModel_from_json st).
    unfold SubscribeConnection.get_machine_model, bind.
    destruct (receive fuel MachineModel_from_json st) as [[m|e| |] st1]; cbn [fst snd] in *;
      try reflexivity.
    exfalso. now apply (Hne m).
  - apply reads_sends, receive_json_reads.
Qed.

End ChannelFacts.

(** ** What is sent can be read back *)

Section Loopback.

Context {Msg Value : Type} {imports : Imports Msg Value}.

Local Abbreviation State := (State Value).

Lemma byte_of_to_N (c : N) : (c < 256)%N -> Byte.to_N (Utf8.byte_of c) = c.
Proof.
  intros H. unfold Utf8.byte_of. destruct (Byte.of_N c) as [b|] eqn:E.
  - now apply Byte.to_of_N.
  - apply Byte.of_N_None_iff in E. lia.
Qed.

(** Encoding then decoding gives ASCII text back. *)
Lemma encode_decode_ascii (s : str) : forall bs,
  ascii_text s = true -> Utf8.encode s = Some bs -> Utf8.decode bs = Some s.
Proof.
  induction s as [|c s IH]; intros bs; cbn [ascii_text forallb Utf8.encode].
  - intros _ [= <-]. reflexivity.
  - intros Ha. apply andb_true_iff in Ha as [Hc Hs].
    unfold Utf8.encode_char. rewrite Hc.
    destruct (Utf8.encode s) as [bs'|]; [|discriminate].
    intros [= <-]. cbn [app Utf8.decode]. cbv zeta.
    apply N.ltb_lt in Hc. rewrite (byte_of_to_N c) by lia.
    apply N.ltb_lt in Hc. rewrite Hc, (IH bs' Hs eq_refl). reflexivity.
Qed.

(** X22. What one end sends the other reads back.  If [send msg] returns,
    the text of [msg] is ASCII, is one the scan frames exactly, and its
    encoding is shorter than the read size, then a connection with an
    empty buffer on whose socket that very payload arrives gets the text
    of [msg] from [receive_json], character for character, and its buffer
    is empty again. *)
Theorem sent_message_reads_back (fuel : nat) (msg : Msg) (js : str)
    (sender sender' receiver : State) (out inc : Sock) :
  send msg sender = (Return tt, sender') ->
  socket (self sender') = Some out ->
  json_dumps msg = Some js ->
  ascii_text js = true ->
  Scanner.framed js ->
  short (last (sk_sent out) []) = true ->
  socket (self receiver) = Some inc ->
  sk_closed inc = false ->
  sk_pending inc = [last (sk_sent out) []] ->
  input (self receiver) = [] ->
  (1 < fuel)%nat ->
  exists receiver',
    receive_json (Msg:=Msg) fuel receiver = (Return js, receiver') /\
    input (self receiver') = [].
Proof.
  intros Hsend Hout Hj Hascii Hfr Hshort Hin Hopen Hpend Hbuf Hfuel.
  destruct (send_outcomes msg sender)
    as [[e E]|(sk & js' & data & Hs & Hj' & He & [(Hc & _ & E)|[e E]])];
    rewrite E in Hsend; try discriminate.
  injection Hsend as <-. cbn [self socket emit set_socket] in Hout.
  injection Hout as <-. cbn [sent_on sk_sent] in *.
  rewrite last_last in *. rewrite Hj in Hj'. injection Hj' as <-.
  apply (encode_decode_ascii js data Hascii) in He.
  destruct (receive_json_delivers (Msg:=Msg) js [] [data] [js] receiver fuel Hfr)
    as (st' & cs' & ps' & R & F & I & _).
  - exists inc. repeat split; try assumption.
    + cbn [forallb]. now rewrite Hshort.
    + cbn [map]. now rewrite He.
  - rewrite Hbuf. cbn [concat app]. now rewrite !app_nil_r.
  - simpl. lia.
  - exists st'. split; [exact R|]. now apply app_eq_nil in I.
Qed.

End Loopback.

(** ** Frames across reads of any size *)

Section StreamFacts.

Context {Msg Value : Type} {imports : Imports Msg Value}.

Local Abbreviation State := (State Value).

Lemma gather_more (reads : nat) :
  forall (reads' : nat) (pending : list bytes) (tail : Tail) (data : bytes) got,
    gather reads pending tail data = Some got ->
    (reads <= reads')%nat ->
    gather reads' pending tail data = Some got.
Proof.
  induction reads as [|reads IH]; intros reads' pending tail data got; [discriminate|].
  intros H Hle. destruct reads' as [|reads']; [lia|].
  cbn [gather] in *. destruct pending as [|c cs]; [exact H|].
  cbv zeta in *. destruct (length (firstn BUFF_SIZE c) <? BUFF_SIZE)%nat; [exact H|].
  apply IH; [exact H|lia].
Qed.

(** The inner loop, run on a connection, returns the batch the script
    gives and leaves the script's remainder pending. *)
Lemma recv_parts_gather (reads : nat) :
  forall (data : bytes) (st : State) (sk : Sock) (got : bytes) (pending' : list bytes),
    socket (self st) = Some sk -> sk_closed sk = false ->
    gather reads (sk_pending sk) (sk_tail sk) data = Some (got, pending') ->
    exists st' sk',
      recv_parts (Msg:=Msg) reads data st = (Return got, st') /\
      socket (self st') = Some sk' /\ sk_closed sk' = false /\
      sk_pending sk' = pending' /\ sk_tail sk' = sk_tail sk /\
      input (self st') = input (self st).
Proof.
  induction reads as [|reads IH]; intros data st sk got pending' Hs Hc; [discriminate|].
  cbn [gather recv_parts]. unfold bind.
  rewrite (on_socket_some _ _ _ _ Hs). unfold sock_recv. rewrite Hc.
  destruct (sk_pending sk) as [|c cs] eqn:Hp.
  - destruct (sk_tail sk) eqn:Ht; try discriminate. intros [= <- <-].
    cbn [fst snd length]. change (0 <? BUFF_SIZE)%nat with true. cbv iota.
    rewrite app_nil_r. eexists. exists sk.
    split; [reflexivity|]. cbn [self socket input set_socket emit].
    now repeat split.
  - cbv zeta.
    assert (forall sk1 : Sock,
              sk_closed sk1 = false -> sk_tail sk1 = sk_tail sk ->
              (if (length (firstn BUFF_SIZE c) <? BUFF_SIZE)%nat
               then Some (data ++ firstn BUFF_SIZE c, sk_pending sk1)
               else gather reads (sk_pending sk1) (sk_tail sk) (data ++ firstn BUFF_SIZE c))
              = Some (got, pending') ->
              exists st' sk',
                (if (length (firstn BUFF_SIZE c) <? BUFF_SIZE)%nat
                 then ret (data ++ firstn BUFF_SIZE c)
                 else recv_parts (Msg:=Msg) reads (data ++ firstn BUFF_SIZE c))
                  (emit (EvRecv (sk_fileno sk) BUFF_SIZE) (set_socket (Some sk1) st))
                = (Return got, st') /\
                socket (self st') = Some sk' /\ sk_closed sk' = false /\
                sk_pending sk' = pending' /\ sk_tail sk' = sk_tail sk /\
                input (self st') = input (self st)) as Step.
    { intros sk1 Hc1 Ht1.
      destruct (length (firstn BUFF_SIZE c) <? BUFF_SIZE)%nat.
      - intros [= <- <-]. eexists. exists sk1. split; [reflexivity|].
        cbn [self socket input set_socket emit]. now repeat split.
      - intros G. rewrite <- Ht1 in G.
        destruct (IH _ (emit (EvRecv (sk_fileno sk) BUFF_SIZE) (set_socket (Some sk1) st))
                    sk1 got pending' eq_refl Hc1 G)
          as (st' & sk' & R & Hs' & Hc' & Hp' & Ht' & Hi').
        exists st', sk'. repeat split; try assumption. congruence. }
    destruct (skipn BUFF_SIZE c) as [|x rest]; cbn [fst snd]; intros G.
    + apply (Step (set_pending cs sk)); [exact Hc|reflexivity|exact G].
    + apply (Step (set_pending ((x :: rest) :: cs) sk)); [exact Hc|reflexivity|exact G].
Qed.

Lemma fed_cons (reads : nat) (st : State) (b : bytes) (bs : list bytes) (ps : list str) :
  fed reads st (b :: bs) ps ->
  exists sk p ps1 pending',
    ps = p :: ps1 /\ Utf8.decode b = Some p /\
    map Utf8.decode bs = map Some ps1 /\
    socket (self st) = Some sk /\ sk_closed sk = false /\
    gather reads (sk_pending sk) (sk_tail sk) [] = Some (b, pending') /\
    batches reads (length bs) pending' (sk_tail sk) = Some bs.
Proof.
  intros (sk & Hs & Hc & Hb & Hd).
  destruct ps as [|p ps1]; [discriminate|]. cbn [map] in Hd. injection Hd as Hd1 Hd2.
  cbn [length batches] in Hb.
  destruct (gather reads (sk_pending sk) (sk_tail sk) []) as [[b' pending']|] eqn:G;
    [|discriminate].
  destruct (batches reads (length bs) pending' (sk_tail sk)) as [bs'|] eqn:B;
    [|discriminate].
  cbn [option_map] in Hb. injection Hb as -> ->.
  exists sk, p, ps1, pending'. now repeat split.
Qed.

Lemma refill_delivers_batches (t rest : str) (reads : nat) :
  Scanner.framed t ->
  forall (bs : list bytes) (ps : list str) (json_string : str) (st : State) (fuel : nat),
    fed reads st bs ps ->
    json_string ++ concat ps = t ++ rest ->
    (length json_string < length t)%nat ->
    (reads + length bs < fuel)%nat ->
    exists st' bs' ps',
      refill (Msg:=Msg) fuel json_string st = (Return t, st') /\
      fed reads st' bs' ps' /\
      input (self st') ++ concat ps' = rest /\
      (length bs' <= length bs)%nat.
Proof.
  intros Ht. induction bs as [|b bs IH]; intros ps js st fuel F E Hjs Hfuel.
  - destruct F as (sk & _ & _ & _ & Hd). destruct ps; [|discriminate].
    cbn in E. rewrite app_nil_r in E. subst js. rewrite length_app in Hjs. lia.
  - apply fed_cons in F as (sk & p & ps1 & pending' & -> & Hd & Hds & Hs & Hc & G & B).
    destruct fuel as [|fuel]; [lia|]. cbn [length] in Hfuel.
    apply (gather_more reads fuel) in G; [|lia].
    destruct (recv_parts_gather fuel [] st sk b pending' Hs Hc G)
      as (st1 & sk1 & R & Hs1 & Hc1 & Hp1 & Ht1 & Hi1).
    rewrite refill_S. unfold bind at 1. rewrite R.
    unfold bind. rewrite Hd. cbn [or_raise ret].
    assert (fed reads st1 bs ps1) as F1.
    { exists sk1. rewrite Hp1, Ht1. now repeat split. }
    cbn [concat] in E. rewrite app_assoc in E.
    destruct (Nat.le_gt_cases (length t) (length (js ++ p))) as [L|L].
    + apply app_split_le in E as (l & E1 & E2); [|assumption].
      rewrite E1, (framed_app t l Ht).
      destruct Ht as [_ Hlen]. apply Z.ltb_lt in Hlen. rewrite Hlen.
      unfold split_at. rewrite slice_to_app_len, slice_from_app_len.
      exists (set_input l st1), bs, ps1. repeat split.
      * destruct F1 as (sk2 & ? & ? & ? & ?). exists sk2. now repeat split.
      * now symmetry.
      * simpl. lia.
    + pose proof E as E'. apply app_split_lt in E' as (l & E1 & Hl & E2); [|assumption].
      assert (Scanner.get_json_object_end_index (js ++ p) = (-1)%Z) as Hi.
      { apply framed_prefix with (q := l); [now rewrite <- E1|assumption]. }
      rewrite Hi. change (1 <? -1)%Z with false. cbv iota.
      destruct (IH ps1 (js ++ p) st1 fuel F1 E L) as (st' & bs' & ps' & R' & F' & I & Hle);
        [lia|].
      exists st', bs', ps'. repeat split; try assumption. simpl. lia.
Qed.

Lemma receive_json_delivers_batches (t rest : str) (reads : nat) (bs : list bytes)
    (ps : list str) (st : State) (fuel : nat) :
  Scanner.framed t ->
  fed reads st bs ps ->
  input (self st) ++ concat ps = t ++ rest ->
  (reads + length bs < fuel)%nat ->
  exists st' bs' ps',
    receive_json (Msg:=Msg) fuel st = (Return t, st') /\
    fed reads st' bs' ps' /\
    input (self st') ++ concat ps' = rest /\
    (length bs' <= length bs)%nat.
Proof.
  intros Ht F E Hfuel. unfold receive_json.
  pose proof F as (sk & Hs & _). rewrite Hs.
  destruct (Nat.le_gt_cases (length t) (length (input (self st)))) as [L|L].
  - apply app_split_le in E as (l & E1 & E2); [|assumption].
    rewrite E1, (framed_app t l Ht).
    pose proof Ht as [_ Hlen]. apply Z.ltb_lt in Hlen. rewrite Hlen.
    unfold split_at. rewrite slice_to_app_len, slice_from_app_len.
    exists (set_input l st), bs, ps. repeat split.
    + destruct F as (sk1 & ? & ? & ? & ?). exists sk1. now repeat split.
    + now symmetry.
    + lia.
  - pose proof E as E'. apply app_split_lt in E' as (l & E1 & Hl & E2); [|assumption].
    assert (Scanner.get_json_object_end_index (input (self st)) = (-1)%Z) as Hi.
    { apply framed_prefix with (q := l); [now rewrite <- E1|assumption]. }
    rewrite Hi. change (1 <? -1)%Z with false. cbv iota.
    now apply refill_delivers_batches with (bs := bs) (ps := ps) (rest := rest) (reads := reads).
Qed.

Lemma receive_json_times_delivers_batches (fuel reads : nat) : forall (texts : list str)
    (bs : list bytes) (ps : list str) (st : State),
  forallb Scanner.framedb texts = true ->
  fed reads st bs ps ->
  input (self st) ++ concat ps = concat texts ->
  (reads + length bs < fuel)%nat ->
  exists st',
    receive_json_times (Msg:=Msg) fuel (length texts) st = (Return texts, st') /\
    input (self st') = [].
Proof.
  induction texts as [|t texts IH]; intros bs ps st Hfr F E Hfuel.
  - cbn. exists st. split; [reflexivity|].
    cbn in E. now apply app_eq_nil in E.
  - cbn in Hfr. apply andb_true_iff in Hfr as [Ht Hfr].
    apply framedb_spec in Ht. cbn [concat] in E.
    destruct (receive_json_delivers_batches t (concat texts) reads bs ps st fuel Ht F E Hfuel)
      as (st1 & bs1 & ps1 & R1 & F1 & E1 & Hle).
    destruct (IH bs1 ps1 st1 Hfr F1 E1) as (st' & R' & Hin); [lia|].
    exists st'. split; [|assumption].
    cbn [length receive_json_times]. unfold bind. rewrite R1, R'. reflexivity.
Qed.

Lemma batches_length (reads : nat) : forall (k : nat) (pending : list bytes)
    (tail : Tail) (bs : list bytes),
  batches reads k pending tail = Some bs -> length bs = k.
Proof.
  induction k as [|k IH]; intros pending tail bs; cbn [batches].
  - intros [= <-]. reflexivity.
  - destruct (gather reads pending tail []) as [[b pending']|]; [|discriminate].
    destruct (batches reads k pending' tail) as [bs'|] eqn:B; [|discriminate].
    cbn [option_map]. intros [= <-]. cbn [length]. f_equal. now apply (IH pending' tail).
Qed.

(** C1, as the code has it. Take object texts that the brace scan frames
    exactly (run on the text alone it stops at the text's last character),
    sent back to back and cut into segments in any way.  The inner loop
    gathers them in batches: reads of up to 4096 bytes, up to and
    including the first shorter one, a closed stream giving an empty last
    read.  If the first [k] batches exist (none ends on a full read with
    the peer silent or reset), each is valid UTF-8 on its own and together
    with the buffer they spell the texts, then as many [receive_json]
    calls as there are texts return exactly those texts, in order, and
    leave the read-ahead buffer empty. *)
Theorem receive_json_returns_frames (fuel reads k : nat) (st : State) (sk : Sock)
    (bs : list bytes) (pieces texts : list str) :
  socket (self st) = Some sk ->
  sk_closed sk = false ->
  batches reads k (sk_pending sk) (sk_tail sk) = Some bs ->
  map Utf8.decode bs = map Some pieces ->
  forallb Scanner.framedb texts = true ->
  input (self st) ++ concat pieces = concat texts ->
  (reads + k < fuel)%nat ->
  exists st',
    receive_json_times (Msg:=Msg) fuel (length texts) st = (Return texts, st') /\
    input (self st') = [].
Proof.
  intros Hs Hc Hb Hdec Hfr E Hfuel.
  pose proof (batches_length reads k _ _ bs Hb) as Hk. subst k.
  apply receive_json_times_delivers_batches with (reads := reads) (bs := bs) (ps := pieces);
    try assumption.
  exists sk. now repeat split.
Qed.

Lemma still_openb_spec (f : str) :
  still_openb f = true <->
  forall j : nat, (1 <= j <= length f)%nat -> (0 < brace_depth (firstn j f))%Z.
Proof.
  unfold still_openb. rewrite forallb_forall. split.
  - intros H j Hj. apply Z.ltb_lt. apply H. apply in_seq. lia.
  - intros H j Hj. apply Z.ltb_lt. apply H. apply in_seq in Hj. lia.
Qed.

Lemma still_open_no_index (f : str) :
  still_openb f = true -> Scanner.get_json_object_end_index f = (-1)%Z.
Proof.
  intros H. apply scan_incomplete. intros j Hj.
  apply still_openb_spec with (j := j) in H; [lia|exact Hj].
Qed.

(** C6, as the code has it.  When [receive_json] returns, the returned
    text followed by the retained buffer is the buffer before the call
    followed by the decoded bytes the call took from the transport, and
    the returned text is one frame of the scanner.  If moreover the old
    buffer with the text read is a run of framed texts followed by a text
    that is still open, then the returned text is the first of the run and
    the retained buffer is the rest of the run followed by that one open
    text. *)
Theorem receive_json_splits (fuel : nat) (st st' : State) (s : str) :
  receive_json (Msg:=Msg) fuel st = (Return s, st') ->
  exists data text,
    consumed st st' data /\
    Utf8.decode data = Some text /\
    s ++ input (self st') = input (self st) ++ text /\
    Scanner.framed s /\
    forall (frames : list str) (fragment : str),
      input (self st) ++ text = concat frames ++ fragment ->
      forallb Scanner.framedb frames = true ->
      still_openb fragment = true ->
      exists later,
        frames = s :: later /\ input (self st') = concat later ++ fragment.
Proof.
  intros Hrun.
  apply receive_json_cut in Hrun as (data & text & C & Hd & Hi & -> & Hin).
  exists data, text. rewrite Hin.
  split; [exact C|]. split; [exact Hd|]. split; [apply slice_to_from|].
  split; [now apply slice_to_framed|].
  intros frames fragment E Hfr Hopen. rewrite E in *.
  destruct frames as [|f later].
  - cbn [concat app] in Hi. rewrite (still_open_no_index fragment Hopen) in Hi. lia.
  - cbn [forallb] in Hfr. apply andb_true_iff in Hfr as [Hf _].
    apply framedb_spec in Hf. cbn [concat]. rewrite <- app_assoc.
    rewrite (framed_app f _ Hf), slice_to_app_len, slice_from_app_len.
    exists later. split; reflexivity.
Qed.

End StreamFacts.

(** * Further runs on concrete traffic *)

Section MoreRuns.

Import Fixture.
Local Open Scope string_scope.

Local Abbreviation receive_json' := (receive_json (Msg:=message) (Value:=value)).

Lemma end_index_stable_witness :
  Scanner.get_json_object_end_index (str_of_string "{'a':1}" ++ str_of_string "{'b'")%list
  = Scanner.get_json_object_end_index (str_of_string "{'a':1}").
Proof.
  apply (end_index_stable (str_of_string "{'a':1}") (str_of_string "{'b'")).
  vm_compute. discriminate.
Defined.

Lemma end_index_cuts_balanced_witness :
  exists k : nat,
    Scanner.get_json_object_end_index (str_of_string "{'a':{}}{'b'") = Z.of_nat k /\
    nth_error (str_of_string "{'a':{}}{'b'") (k - 1) = Some RBRACE.
Proof.
  destruct (end_index_cuts_balanced (str_of_string "{'a':{}}{'b'"))
    as (k & Hk & _ & _ & _ & _ & Hlast); [reflexivity|].
  exists k. split; assumption.
Defined.

Lemma end_index_is_first_balance_witness :
  Scanner.get_json_object_end_index (str_of_string "{{}}{}") = 4%Z.
Proof.
  apply (end_index_is_first_balance (str_of_string "{{}}{}") 4).
  - vm_compute. split; repeat constructor.
  - intros j Hj. destruct j as [|[|[|[|j]]]]; try lia; reflexivity.
  - reflexivity.
Defined.

Lemma end_index_of_open_text_witness :
  Scanner.get_json_object_end_index (str_of_string "{{}") = (-1)%Z.
Proof.
  apply (end_index_of_open_text (str_of_string "{{}")).
  intros j Hj. simpl in Hj. destruct j as [|[|[|[|j]]]]; try lia; reflexivity.
Defined.

(** The connection is reset while an object is half read: the half that
    was in the buffer is still there, the part read from the socket is
    not. *)
Lemma receive_json_failure_keeps_input_witness :
  input (self (snd (receive_json' 10 (connected (server [":{'b'"] Reset) "{'a'"))))
  = str_of_string "{'a'".
Proof.
  apply (receive_json_failure_keeps_input (Msg:=message) 10
           (connected (server [":{'b'"] Reset) "{'a'")).
  - reflexivity.
  - intros s. vm_compute. discriminate.
Defined.

Lemma receive_json_serves_buffer_witness :
  receive_json_times (Msg:=message) 0 2 (connected (server [] Reset) "{'a':1}{'b':2}{'c'")
  = (Return [str_of_string "{'a':1}"; str_of_string "{'b':2}"],
     set_input (str_of_string "{'c'") (connected (server [] Reset) "{'a':1}{'b':2}{'c'")).
Proof.
  apply (receive_json_serves_buffer (Msg:=message) 0
           [str_of_string "{'a':1}"; str_of_string "{'b':2}"]
           (str_of_string "{'c'")
           (connected (server [] Reset) "{'a':1}{'b':2}{'c'")).
  - discriminate.
  - reflexivity.
  - reflexivity.
Defined.

Lemma receive_json_returns_balanced_witness :
  brace_depth (str_of_string "{'a':1}") = 0%Z.
Proof.
  destruct (receive_json_returns_balanced (Msg:=message) 10
              (connected (server [":1}"] Hang) "{'a'")
              (snd (receive_json' 10 (connected (server [":1}"] Hang) "{'a'")))
              (str_of_string "{'a':1}"))
    as (_ & _ & _ & Hz); [vm_compute; reflexivity|exact Hz].
Defined.

Lemma send_writes_once_witness :
  exists sk js data,
    json_dumps command = Some js /\ Utf8.encode js = Some data /\
    snd (send command (connected (server [] Hang) ""))
    = emit (EvSendAll (sk_fileno sk) data)
        (set_socket (Some (sent_on data sk)) (connected (server [] Hang) "")).
Proof.
  destruct (send_writes_once command (connected (server [] Hang) "")
              (snd (send command (connected (server [] Hang) ""))))
    as (sk & js & data & _ & _ & Hj & He & Hst); [vm_compute; reflexivity|].
  exists sk, js, data. repeat split; assumption.
Defined.

Lemma perform_command_success_witness :
  let st := connected (server ["{'success':true,'result':5}"] Hang) "" in
  perform_command 10 command None st
  = (Return (mkResponse true (Some (VInt 5)) None None),
     snd (receive_response 10 (snd (send command st)))).
Proof.
  intros st.
  refine (proj1 (perform_command_success 10 command st
                   (snd (send command st))
                   (snd (receive_response 10 (snd (send command st))))
                   (mkResponse true (Some (VInt 5)) None None)
                   _ _ _)); vm_compute; reflexivity.
Defined.


(** A connection object that was closed with a refusal still in its
    buffer: the next handshake is refused by that stale text although the
    server accepts. *)
Lemma connect_answers_from_buffer_witness :
  let stale :=
    mkState
      (mkConn false None None
         (str_of_string
            "{'success':false,'errorType':'ArgumentException','errorMessage':'bad'}{'x'"))
      0 (fun _ => good_server ["{'success':true}"]) [] in
  exists st',
    connect 10 command "/run/dsf/dcs.sock" stale
    = (Raise (ConnectionTypeRefused (VText (str_of_string "command"))
                (Some (str_of_string "ArgumentException"))
                (Some (str_of_string "bad"))), st') /\
    input (self st') = str_of_string "{'x'".
Proof.
  intros stale.
  destruct (connect_answers_from_buffer 10 command "/run/dsf/dcs.sock" stale
              (str_of_string
                 "{'success':false,'errorType':'ArgumentException','errorMessage':'bad'}")
              (str_of_string "{'x'")
              (bytes_of_string "{'version':11,'id':7}")
              (server ["{'success':true}"] Hang)
              (str_of_string "{'version':11,'id':7}")
              (VGreeting 11 7)
              ((11%Z, 7%Z) : @ServerInitMessage message value imports)
              (str_of_string "{'command':'Flush'}")
              (bytes_of_string "{'command':'Flush'}")
              (mkResponse false None (Some (str_of_string "ArgumentException"))
                 (Some (str_of_string "bad"))))
    as (st' & Hrun & Hin & _);
    try (vm_compute; reflexivity).
  - split; vm_compute; reflexivity.
  - cbn. lia.
  - exists st'. split; [exact Hrun|exact Hin].
Defined.

Lemma subscription_read_acknowledged_witness :
  let st := connected (server ["{'a':1}{'b'"] Hang) "" in
  exists st1 sk data,
    receive_json' 10 st = (Return (str_of_string "{'a':1}"), st1) /\
    snd (SubscribeConnection.get_machine_model_patch acknowledge 10 st)
    = emit (EvSendAll (sk_fileno sk) data) (set_socket (Some (sent_on data sk)) st1).
Proof.
  intros st.
  destruct (subscription_read_acknowledged 10 acknowledge st
              (snd (SubscribeConnection.get_machine_model_patch acknowledge 10 st))
              (str_of_string "{'a':1}"))
    as (_ & st1 & sk & js & data & Hr & _ & _ & _ & Hst); [vm_compute; reflexivity|].
  exists st1, sk, data. split; assumption.
Defined.

Lemma sent_message_reads_back_witness :
  exists receiver',
    receive_json' 10
      (connected (mkSock 4 true [bytes_of_string "{'command':'Flush'}"] Hang 8 [] false) "")
    = (Return (str_of_string "{'command':'Flush'}"), receiver') /\
    input (self receiver') = [].
Proof.
  apply (sent_message_reads_back (Msg:=message) 10 command
           (str_of_string "{'command':'Flush'}")
           (connected (server [] Hang) "")
           (snd (send command (connected (server [] Hang) "")))
           (connected (mkSock 4 true [bytes_of_string "{'command':'Flush'}"] Hang 8 [] false) "")
           (sent_on (bytes_of_string "{'command':'Flush'}") (server [] Hang))
           (mkSock 4 true [bytes_of_string "{'command':'Flush'}"] Hang 8 [] false));
    try (vm_compute; reflexivity).
  - split; vm_compute; reflexivity.
  - lia.
Defined.

(** Two objects in one segment of 4104 bytes: the first read is full and
    ends inside the segment, the inner loop reads again and gathers the
    whole segment as one batch. *)
Lemma receive_json_returns_frames_witness :
  exists st',
    receive_json_times (Msg:=message) 10 2
      (connected (mkSock 3 true [full_object_bytes ++ bytes_of_string "{'b':{}}"]%list
                    Hang 8 [] false) "")
    = (Return [full_object_text; str_of_string "{'b':{}}"], st') /\
    input (self st') = [].
Proof.
  apply (receive_json_returns_frames (Msg:=message) 10 3 1
           (connected (mkSock 3 true [full_object_bytes ++ bytes_of_string "{'b':{}}"]%list
                         Hang 8 [] false) "")
           (mkSock 3 true [full_object_bytes ++ bytes_of_string "{'b':{}}"]%list
              Hang 8 [] false)
           [full_object_bytes ++ bytes_of_string "{'b':{}}"]%list
           [full_object_text ++ str_of_string "{'b':{}}"]%list
           [full_object_text; str_of_string "{'b':{}}"]);
    try (vm_compute; reflexivity).
  lia.
Defined.

(** A full read right before the end of a closed stream, and a segment
    longer than one read: both are gathered and returned whole. *)
Example full_read_at_eof_returns :
  fst (receive_json' 10 (connected (mkSock 3 true [full_object_bytes] Eof 8 [] false) ""))
  = Return full_object_text /\
  fst (receive_json' 10
         (connected (mkSock 3 true [bytes_of_string "{'pad':'" ++ full_object_bytes
                                    ++ bytes_of_string "'}"]%list Hang 8 [] false) ""))
  = Return (str_of_string "{'pad':'" ++ full_object_text ++ str_of_string "'}")%list.
Proof. split; vm_compute; reflexivity. Qed.

(** An object with a closing brace in a string, then a second object: the
    call returns the text up to that brace; what it retains begins with
    the tail of the first object, is no run of framed texts followed by
    an open one, and the second object in it is never served. *)
Lemma retained_buffer_not_framable :
  let run := receive_json' 10 (connected (server ["{'a':'}'}{'b':2}"] Hang) "") in
  fst run = Return (str_of_string "{'a':'}") /\
  input (self (snd run)) = str_of_string "'}{'b':2}" /\
  ~ (exists frames fragment,
       input (self (snd run)) = (concat frames ++ fragment)%list /\
       forallb Scanner.framedb frames = true /\
       still_openb fragment = true) /\
  fst (receive_json' 10 (snd run)) = Block.
Proof.
  cbv zeta.
  assert (input (self (snd (receive_json' 10
                              (connected (server ["{'a':'}'}{'b':2}"] Hang) ""))))
          = str_of_string "'}{'b':2}") as Hin by (vm_compute; reflexivity).
  split; [vm_compute; reflexivity|]. split; [exact Hin|].
  split; [|vm_compute; reflexivity].
  rewrite Hin. intros (frames & fragment & E & Hfr & Hopen).
  destruct frames as [|f later].
  - cbn [concat app] in E. subst fragment. vm_compute in Hopen. discriminate.
  - cbn [forallb] in Hfr. apply andb_true_iff in Hfr as [Hf _].
    apply framedb_spec, framed_balanced in Hf as (_ & Hhead & _).
    destruct f as [|x f]; [discriminate|]. cbn in Hhead. injection Hhead as ->.
    vm_compute in E. discriminate.
Qed.

(** A call that reads the end of one object and, with it, a whole second
    object and the start of a third. *)
Lemma receive_json_splits_witness :
  input (self (snd (receive_json' 10
                      (connected (server [":1}{'b':2}{'c'"] Hang) "{'a'"))))
  = (concat [str_of_string "{'b':2}"] ++ str_of_string "{'c'")%list.
Proof.
  destruct (receive_json_splits (Msg:=message) 10
              (connected (server [":1}{'b':2}{'c'"] Hang) "{'a'")
              (snd (receive_json' 10 (connected (server [":1}{'b':2}{'c'"] Hang) "{'a'")))
              (str_of_string "{'a':1}"))
    as (data & text & _ & _ & Hcut & _ & Hinv); [vm_compute; reflexivity|].
  destruct (Hinv [str_of_string "{'a':1}"; str_of_string "{'b':2}"] (str_of_string "{'c'"))
    as (later & Hl & Hrest).
  - rewrite <- Hcut. vm_compute. reflexivity.
  - reflexivity.
  - reflexivity.
  - injection Hl as <-. exact Hrest.
Defined.

End MoreRuns.
